(** * django-optimizations: thumbnail cache and javascript cache

    A shallow embedding of [optimizations/thumbnailcache.py] and
    [optimizations/javascriptcache.py], and the properties of the
    derivative-asset cache that are stated about them.

    Conventions of the embedding.
    - Python integers are [Z]; Python 2 integer division [/] on integers is
      [Z.div] (floor).
    - Python floats are idealised as exact rationals [Q]: [float(a) / float(b)]
      is the exact quotient and [round] is Python 2's round-half-away-from-zero
      on that exact value.  [int] on a float truncates toward zero.  In
      [_resize_cropped] the last bit of a float decides a pixel of the size
      that the image is resized to: there every float is rounded to the
      binary64 value that the code holds, with [double].
    - An exception is a value of [exn]; a computation that may raise returns a
      [result].
    - Code that touches the outside world (PIL, the filesystem, the logger,
      the storage, the compressor process) runs in the monad [M] over a
      [World]; what the outside world answers is a parameter of the section
      the code lives in. *)

From Stdlib Require Import ZArith QArith Qround Lia Lqa.
From stdpp Require Import gmap strings.

#[local] Open Scope Z_scope.
#[local] Open Scope string_scope.

(** ** Exceptions and results *)

Inductive exn : Type :=
  | TypeError
  | ZeroDivisionError
  | StopIteration
  | KeyError (key : string)
  | SyntaxError (msg : string)
  | ValueError (msg : string)
  | IOError (msg : string)
  | OSError (msg : string)
  | JavascriptError (msg : string).

Inductive result (A : Type) : Type :=
  | Ok (a : A)
  | Raise (e : exn).

Arguments Ok {A} a.
Arguments Raise {A} e.

Definition rbind {A B} (r : result A) (k : A -> result B) : result B :=
  match r with
  | Ok a => k a
  | Raise e => Raise e
  end.

Notation "x <-? r ;; k" := (rbind r (fun x => k))
  (at level 100, r at next level, right associativity).

(** [str(ex)] of the exceptions that carry a message. *)
Definition str (e : exn) : string :=
  match e with
  | TypeError => "TypeError"
  | ZeroDivisionError => "float division by zero"
  | StopIteration => ""
  | KeyError k => k
  | SyntaxError m | ValueError m | IOError m | OSError m | JavascriptError m => m
  end.

(** ** Numbers *)

(** [sys.maxint] of a 64-bit CPython 2. *)
Definition sys_maxint : Z := 2 ^ 63 - 1.

(** Python 2 [round(x)]: nearest integer, halves away from zero.  The result
    is an integral float, kept as the integer it denotes. *)
Definition py_round (x : Q) : Z :=
  if Qle_bool 0 x then Qfloor (x + (1 # 2)) else Qceiling (x - (1 # 2)).

(** [int(x)] on a float: truncation toward zero. *)
Definition py_int (x : Q) : Z :=
  if Qle_bool 0 x then Qfloor x else Qceiling x.

(** *** binary64

    [double q] is the IEEE 754 binary64 number nearest to [q], ties to even:
    a significand of 53 bits times a power of two.  The range of the exponent
    is taken as unbounded; the sizes of images are far from both ends of
    it. *)

(** [n / d] divided by [2 ^ e], as a fraction. *)
Definition scaled (n d e : Z) : Z * Z :=
  if (0 <=? e)%Z then (n, d * 2 ^ e) else (n * 2 ^ (- e), d).

(** The integer nearest to [num / den], halves to the even one. *)
Definition round_half_even (num den : Z) : Z :=
  let f := num / den in
  let r := num mod den in
  if (2 * r <? den)%Z then f
  else if (den <? 2 * r)%Z then f + 1
  else if Z.even f then f else f + 1.

(** The exponent [e] for which [n / d] lies between [2 ^ 52 * 2 ^ e] and
    [2 ^ 53 * 2 ^ e], for positive [n] and [d]. *)
Definition exponent (n d : Z) : Z :=
  let e := Z.log2 n - Z.log2 d - 52 in
  let '(num, den) := scaled n d e in
  if (2 ^ 52 * den <=? num)%Z then e else e - 1.

Definition significand (n d : Z) : Z :=
  let '(num, den) := scaled n d (exponent n d) in
  round_half_even num den.

Definition times_pow2 (m e : Z) : Q :=
  if (0 <=? e)%Z then inject_Z (m * 2 ^ e) else Qmake m (Z.to_pos (2 ^ (- e))).

Definition double (q : Q) : Q :=
  match Qnum q with
  | 0 => 0%Q
  | Zpos n =>
      times_pow2 (significand (Zpos n) (Zpos (Qden q)))
                 (exponent (Zpos n) (Zpos (Qden q)))
  | Zneg n =>
      Qopp (times_pow2 (significand (Zpos n) (Zpos (Qden q)))
                       (exponent (Zpos n) (Zpos (Qden q))))
  end.

(** A number as the constructor of [Size] receives it. *)
Inductive number : Type :=
  | Int (z : Z)
  | Float (q : Q).

Definition int (n : number) : Z :=
  match n with
  | Int z => z
  | Float q => py_int q
  end.

(** ** class Size *)

Record Size : Type := mkSize { width : option Z; height : option Z }.

#[global] Instance Size_eq_dec : EqDecision Size.
Proof. solve_decision. Defined.

(** [Size.__new__]: each axis is [None] or coerced with [int]. *)
Definition Size_new (w h : option number) : Size :=
  {| width := int <$> w; height := int <$> h |}.

(** A size with both axes concrete. *)
Definition size_of (w h : Z) : Size := Size_new (Some (Int w)) (Some (Int h)).

(** [float(v)]: a [TypeError] on [None]. *)
Definition float (v : option Z) : result Q :=
  match v with
  | Some z => Ok (inject_Z z)
  | None => Raise TypeError
  end.

(** Float division, which raises on a zero divisor. *)
Definition fdiv (a b : Q) : result Q :=
  if Qeq_bool b 0 then Raise ZeroDivisionError else Ok (a / b)%Q.

(** Python 2 [min] on two values that may be [None]: [None] orders below
    every number. *)
Definition py_min (a b : option Z) : option Z :=
  match a, b with
  | Some x, Some y => Some (Z.min x y)
  | _, _ => None
  end.

Module SizeM.

(** [Size.aspect] *)
Definition aspect (self : Size) : result Q :=
  w <-? float (width self) ;;
  h <-? float (height self) ;;
  fdiv w h.

(** [Size.intersect] *)
Definition intersect (self size : Size) : Size :=
  {| width := py_min (width self) (width size);
     height := py_min (height self) (height size) |}.

(** [Size.constrain].  [self.height * reference_aspect] and
    [self.width / reference_aspect] raise a [TypeError] on [None]. *)
Definition constrain (self reference : Size) : result Size :=
  reference_aspect <-? aspect reference ;;
  sh <-? float (height self) ;;
  let width_ := py_min (Some (py_round (sh * reference_aspect))) (width self) in
  sw <-? float (width self) ;;
  q <-? fdiv sw reference_aspect ;;
  let height_ := py_min (Some (py_round q)) (height self) in
  Ok {| width := width_; height := height_ |}.


End SizeM.

(** [Size.aspect] on binary64 numbers: [float(self.width)],
    [float(self.height)] and their quotient, each rounded. *)
Definition aspect_binary64 (self : Size) : result Q :=
  w <-? float (width self) ;;
  h <-? float (height self) ;;
  q <-? fdiv (double w) (double h) ;;
  Ok (double q).

(** ** Size adjustment callbacks *)

Definition _replace_null (value : option Z) (fallback : option Z) : option Z :=
  match value with
  | None => fallback
  | Some _ => value
  end.

Definition _size (reference size : Size) : result Size :=
  Ok {| width := _replace_null (width size) (width reference);
        height := _replace_null (height size) (height reference) |}.

Definition _size_proportional (reference size : Size) : result Size :=
  match width size, height size with
  | None, None => _size reference size
  | _, _ =>
      SizeM.constrain
        {| width := _replace_null (width size) (Some sys_maxint);
           height := _replace_null (height size) (Some sys_maxint) |}
        reference
  end.

(** ** The outside world *)

(** A PIL image, as far as the cache looks at it: where it was opened from
    and its [size]. *)
Record Image : Type := mkImage { im_source : string; im_size : Z * Z }.

(** A file on disk is complete, or cut short by a failed write. *)
Inductive File : Type :=
  | Complete (data : string)
  | Partial (data : string).

(** Calls made to the collaborators, in order. *)
Inductive Event : Type :=
  | EvImageOpen (path : string)
  | EvDraft (size : Size)
  | EvResize (size : Size)
  | EvCrop (box : Z * Z * Z * Z)
  | EvImageSave (path : string)
  | EvMakedirs (path : string)
  | EvUnlink (path : string)
  | EvCommunicate (stdin : string)
  | EvLoggerError (msg : string)
  | EvStorageSave (name : string) (content : string).

(** A generator made by [image_opener]: not started, suspended at its
    [yield] with the opened image, or finished by an exception. *)
Inductive GeneratorState : Type :=
  | Fresh
  | Yielding (im : Image)
  | Finished.

Record World : Type := mkWorld {
  files : gmap string File;          (* the filesystem, by path *)
  stored : gmap string string;       (* the storage, by name *)
  generators : list GeneratorState;  (* the live generator objects *)
  trace : list Event
}.

(** State and exceptions: the world as it is when an exception is raised is
    the world the handler sees. *)
Definition M (A : Type) : Type := World -> result A * World.

Definition ret {A} (a : A) : M A := fun w => (Ok a, w).
Definition raise {A} (e : exn) : M A := fun w => (Raise e, w).
Definition bind {A B} (m : M A) (k : A -> M B) : M B :=
  fun w => match m w with
           | (Ok a, w') => k a w'
           | (Raise e, w') => (Raise e, w')
           end.
Definition lift {A} (r : result A) : M A := fun w => (r, w).

Notation "x <- m ;; k" := (bind m (fun x => k))
  (at level 100, m at next level, right associativity).
Notation "m ;;; k" := (bind m (fun _ => k))
  (at level 100, right associativity).

(** [try: m  except Exception as ex: handler ex] *)
Definition try_except {A} (m : M A) (handler : exn -> M A) : M A :=
  fun w => match m w with
           | (Ok a, w') => (Ok a, w')
           | (Raise e, w') => handler e w'
           end.

(** [try: m  finally: fin]; an exception of [fin] replaces that of [m]. *)
Definition try_finally {A} (m : M A) (fin : M unit) : M A :=
  fun w => match m w with
           | (r, w') => match fin w' with
                        | (Ok _, w'') => (r, w'')
                        | (Raise e, w'') => (Raise e, w'')
                        end
           end.

Definition get_world : M World := fun w => (Ok w, w).

Definition emit (ev : Event) : M unit :=
  fun w => (Ok tt, {| files := files w; stored := stored w;
                      generators := generators w; trace := trace w ++ [ev] |}).

Definition set_files (f : gmap string File -> gmap string File) : M unit :=
  fun w => (Ok tt, {| files := f (files w); stored := stored w;
                      generators := generators w; trace := trace w |}).

Definition set_stored (f : gmap string string -> gmap string string) : M unit :=
  fun w => (Ok tt, {| files := files w; stored := f (stored w);
                      generators := generators w; trace := trace w |}).

Definition set_generators (f : list GeneratorState -> list GeneratorState) : M unit :=
  fun w => (Ok tt, {| files := files w; stored := stored w;
                      generators := f (generators w); trace := trace w |}).

(** What [Image.open] answers: an image, or PIL's [IOError]. *)
Inductive OpenOutcome : Type :=
  | Opened (im : Image)
  | CannotOpen (msg : string).

(** What [image.save(path)] does: writes the whole file, or raises, having
    written part of the file or nothing of it. *)
Inductive WriteOutcome : Type :=
  | Written (data : string)
  | WriteFailed (e : exn) (partial : option string).

(** The answers of the collaborators. *)
Record Env : Type := mkEnv {
  (* PIL *)
  Image_open_outcome : string -> OpenOutcome;
  resize_outcome : Image -> Size -> option exn;
  save_outcome : Image -> string -> WriteOutcome;
  (* os *)
  makedirs_outcome : string -> option string;
  os_path_dirname : string -> string;
  (* the storage *)
  storage_path : string -> string;
  storage_url : string -> string;
  (* the compressor process: return code, stdout, stderr *)
  communicate_outcome : string -> Z * string * string
}.

(** ** PIL and os *)

Module PIL.
Section WithEnv.
Variable env : Env.

(** [Image.open(path)] *)
Definition open (path : string) : M Image :=
  emit (EvImageOpen path) ;;;
  match Image_open_outcome env path with
  | Opened im => ret im
  | CannotOpen msg => raise (IOError msg)
  end.

(** [image.draft(None, size)] configures the loader and returns nothing. *)
Definition draft (image : Image) (size : Size) : M unit :=
  emit (EvDraft size).

(** [image.resize(size, Image.ANTIALIAS)]: decodes and resamples; the new
    image has the size asked for. *)
Definition resize (image : Image) (size : Size) : M Image :=
  emit (EvResize size) ;;;
  match width size, height size with
  | Some w, Some h =>
      match resize_outcome env image size with
      | Some e => raise e
      | None => ret {| im_source := im_source image; im_size := (w, h) |}
      end
  | _, _ => raise TypeError
  end.

(** [image.crop((x0, y0, x1, y1))]: the region, of size
    [(x1 - x0, y1 - y0)]; PIL moves a right or lower edge that lies before
    the left or upper one onto it. *)
Definition crop (image : Image) (box : Z * Z * Z * Z) : M Image :=
  emit (EvCrop box) ;;;
  let '(x0, y0, x1, y1) := box in
  ret {| im_source := im_source image;
         im_size := (Z.max x1 x0 - x0, Z.max y1 y0 - y0) |}.

(** [image.save(path)] *)
Definition save (image : Image) (path : string) : M unit :=
  emit (EvImageSave path) ;;;
  match save_outcome env image path with
  | Written data => set_files (insert path (Complete data))
  | WriteFailed e (Some data) => set_files (insert path (Partial data)) ;;; raise e
  | WriteFailed e None => raise e
  end.

End WithEnv.
End PIL.

Module os.
Section WithEnv.
Variable env : Env.

(** [os.makedirs(path)]; directories are not part of [files]. *)
Definition makedirs (path : string) : M unit :=
  emit (EvMakedirs path) ;;;
  match makedirs_outcome env path with
  | Some msg => raise (OSError msg)
  | None => ret tt
  end.

(** [os.unlink(path)] *)
Definition unlink (path : string) : M unit :=
  emit (EvUnlink path) ;;;
  w <- get_world ;;
  match files w !! path with
  | Some _ => set_files (delete path)
  | None => raise (OSError "No such file or directory")
  end.

End WithEnv.
End os.

(** ** The storage *)

Module storage.

(** [storage.save(name, ContentFile(content))] *)
Definition save (name content : string) : M unit :=
  emit (EvStorageSave name content) ;;;
  set_stored (insert name content).

End storage.

(** ** Resize callbacks and the methods table *)

Record ResizeMethod : Type := mkResizeMethod {
  get_display_size : Size -> Size -> result Size;
  get_data_size : Size -> Size -> result Size;
  do_resize : Image -> Size -> Size -> Size -> M Image;
  hash_key : string
}.

Definition PROPORTIONAL : string := "proportional".
Definition RESIZE : string := "resize".
Definition CROP : string := "crop".

Section Methods.
Variable env : Env.

Definition _resize (image : Image)
    (image_size thumbnail_display_size thumbnail_image_size : Size) : M Image :=
  PIL.resize env image thumbnail_image_size.

(** The floats of [_resize_cropped] are the binary64 values of the code:
    the two aspect ratios, [thumbnail_image_size.height * image_aspect] and
    [thumbnail_image_size.width / image_aspect], where the integer becomes a
    float first; each operation is rounded once. *)
Definition _resize_cropped (image : Image)
    (image_size thumbnail_display_size thumbnail_image_size : Size) : M Image :=
  image_aspect <- lift (aspect_binary64 image_size) ;;
  thumbnail_aspect <- lift (aspect_binary64 thumbnail_image_size) ;;
  match width thumbnail_image_size, height thumbnail_image_size with
  | Some tw, Some th =>
      pre_cropped_size <-
        (if Qlt_le_dec thumbnail_aspect image_aspect then
           (* Too wide. *)
           ret (Size_new
                  (Some (Float (double (double (inject_Z th) * image_aspect))))
                  (Some (Int th)))
         else
           (* Too tall. *)
           q <- lift (fdiv (double (inject_Z tw)) image_aspect) ;;
           ret (Size_new (Some (Int tw)) (Some (Float (double q))))) ;;
      image <- PIL.resize env image pre_cropped_size ;;
      match width pre_cropped_size, height pre_cropped_size with
      | Some pw, Some ph =>
          let source_x := (pw - tw) / 2 in
          let source_y := (ph - th) / 2 in
          PIL.crop image (source_x, source_y, source_x + tw, source_y + th)
      | _, _ => raise TypeError
      end
  | _, _ => raise TypeError
  end.

Definition _methods : gmap string ResizeMethod :=
  <[PROPORTIONAL := mkResizeMethod _size_proportional _size _resize "resize"]>
  (<[RESIZE := mkResizeMethod _size _size _resize "resized"]>
  (<[CROP := mkResizeMethod _size _size_proportional _resize_cropped "crop"]> ∅)).

(** [_methods.iterkeys()], in the order of the dict literal. *)
Definition _methods_keys : list string := [PROPORTIONAL; RESIZE; CROP].

End Methods.

(** ** Assets *)

(** A value of a parameter map. *)
Inductive pyval : Type :=
  | VNone
  | VInt (z : Z)
  | VStr (s : string)
  | VBool (b : bool)
  | VIds (l : list string).

Definition of_option (v : option Z) : pyval :=
  match v with
  | Some z => VInt z
  | None => VNone
  end.

(** An adapted source asset ([optimizations.assetcache.Asset]): what its
    [get_id()], [get_name()] and [get_path()] return, and its bytes. *)
Record Asset : Type := mkAsset {
  asset_id : string;
  asset_name : string;
  asset_path : string;
  asset_contents : string
}.

(** The generator object of [image_opener(asset)], by its place in
    [generators]. *)
Record Opener : Type := mkOpener { op_ref : nat; op_asset : Asset }.

Section Openers.
Variable env : Env.

(** Calling [image_opener(asset)] makes a generator that has not run yet. *)
Definition image_opener (asset : Asset) : M Opener :=
  w <- get_world ;;
  set_generators (fun g => (g ++ [Fresh])%list) ;;;
  ret {| op_ref := length (generators w); op_asset := asset |}.

(** [next(opener)]: the first call opens the image, every later one yields
    the same image; an exception finishes the generator. *)
Definition next (opener : Opener) : M Image :=
  w <- get_world ;;
  match generators w !! op_ref opener with
  | Some Fresh =>
      try_except
        (image_data <- PIL.open env (asset_path (op_asset opener)) ;;
         set_generators (<[op_ref opener := Yielding image_data]>) ;;;
         ret image_data)
        (fun ex => set_generators (<[op_ref opener := Finished]>) ;;; raise ex)
  | Some (Yielding image_data) => ret image_data
  | Some Finished | None => raise StopIteration
  end.

End Openers.

(** ** class ThumbnailAsset *)

Module ThumbnailAsset.

Record t : Type := mk {
  _asset : Asset;
  _opener : Opener;
  _original_size : Size;
  _display_size : Size;
  _data_size : Size;
  _method : ResizeMethod
}.

Definition get_name (self : t) : string := asset_name (_asset self).

Definition get_path (self : t) : string := asset_path (_asset self).

Section IdParams.
(** [Asset.get_id_params], the method of the base class that
    [super(ThumbnailAsset, self).get_id_params()] runs on [self]; it lives
    in [optimizations/assetcache.py]. *)
Variable Asset_get_id_params : t -> gmap string pyval.

Definition get_id_params (self : t) : gmap string pyval :=
  let params := Asset_get_id_params self in
  let params := <["width" := of_option (width (_display_size self))]> params in
  let params := <["height" := of_option (height (_display_size self))]> params in
  let params := <["method" := VStr (hash_key (_method self))]> params in
  params.

End IdParams.

Section Save.
Variable env : Env.

Definition save (self : t) (name : string) : M unit :=
  image_data <- next env (_opener self) ;;
  (* Use efficient image loading. *)
  PIL.draft image_data (_data_size self) ;;;
  (* Resize the image data. *)
  image_data <-
    try_except
      (do_resize (_method self) image_data
         (_original_size self) (_display_size self) (_data_size self))
      (fun ex => raise (IOError (str ex))) ;;
  (* If the storage has a path, then save it efficiently. *)
  let thumbnail_path := storage_path env name in
  try_except
    (os.makedirs env (os_path_dirname env thumbnail_path))
    (fun ex => match ex with
               | OSError _ => ret tt
               | _ => raise ex
               end) ;;;
  try_except
    (PIL.save env image_data thumbnail_path)
    (fun ex =>
       try_finally
         (raise (IOError (str ex)))
         (* Remove an incomplete file, if present. *)
         (try_except (os.unlink thumbnail_path) (fun _ => ret tt))).

End Save.

End ThumbnailAsset.

(** ** class JavascriptAsset *)

Module JavascriptAsset.

Record t : Type := mk {
  _assets : list Asset;
  _compile : bool;
  _fail_silently : bool
}.

Definition join_str : string := ";".

(** [GroupedAsset.get_name] is in [optimizations/assetcache.py], which is not
    under src/; a grouped asset is taken to go by the name of its first
    constituent.  No statement below depends on it. *)
Definition get_name (self : t) : string :=
  match _assets self with
  | a :: _ => asset_name a
  | [] => ""
  end.

(** Modelled from the spec: [GroupedAsset.get_contents] of
    [optimizations/assetcache.py], which is not under src/: the constituent
    byte contents concatenated with the join separator in source order. *)
Definition get_contents (self : t) : string :=
  String.concat join_str (map asset_contents (_assets self)).

Section IdParams.
(** [GroupedAsset.get_id_params], the method of the base class that
    [super(JavascriptAsset, self).get_id_params()] runs on [self]; it
    lives in [optimizations/assetcache.py]. *)
Variable GroupedAsset_get_id_params : t -> gmap string pyval.

Definition get_id_params (self : t) : gmap string pyval :=
  let params := GroupedAsset_get_id_params self in
  let params := <["compile" := VBool (_compile self)]> params in
  params.

End IdParams.

(** Modelled from the spec: [GroupedAsset.save] of
    [optimizations/assetcache.py], which is not under src/: the
    concatenation is saved as it is. *)
Definition GroupedAsset_save (self : t) (name : string) : M unit :=
  storage.save name (get_contents self).

Section Save.
Variable env : Env.

(** [subprocess.Popen(("java", "-jar", ...)).communicate(contents)],
    followed by [process.returncode]. *)
Definition communicate (contents : string) : M (Z * string * string) :=
  emit (EvCommunicate contents) ;;;
  ret (communicate_outcome env contents).

Definition logger_error (msg : string) : M unit := emit (EvLoggerError msg).

Definition save (self : t) (name : string) : M unit :=
  if _compile self then
    let contents := get_contents self in
    out <- communicate contents ;;
    let '(returncode, stdoutdata, stderrdata) := out in
    (* Check it all worked. *)
    file <-
      (if negb (returncode =? 0)%Z then
         logger_error stderrdata ;;;
         (if negb (_fail_silently self)
          then raise (JavascriptError "Error while compiling javascript.")
          else ret tt) ;;;
         ret contents
       else
         (* Write the output. *)
         ret stdoutdata) ;;
    storage.save name file
  else
    (* Just save the joined code. *)
    GroupedAsset_save self name.

End Save.

End JavascriptAsset.

(** ** String formatting *)

(** A format string, parsed: literal text and [{name}] fields. *)
Inductive piece : Type :=
  | Lit (s : string)
  | Field (name : string).

Fixpoint repeated (names : list string) : bool :=
  match names with
  | [] => false
  | n :: rest => bool_decide (n ∈ rest) || repeated rest
  end.

(** The keyword arguments of a call.  Python rejects a call that gives a
    keyword twice ("keyword argument repeated"), when it compiles the call;
    the embedding reports it where the call stands. *)
Definition keywords (kwargs : list (string * string)) : result (gmap string string) :=
  if repeated (map fst kwargs)
  then Raise (SyntaxError "keyword argument repeated")
  else Ok (list_to_map kwargs).

Fixpoint format_pieces (template : list piece) (kw : gmap string string) : result string :=
  match template with
  | [] => Ok ""
  | Lit s :: rest => r <-? format_pieces rest kw ;; Ok (s ++ r)
  | Field n :: rest =>
      match kw !! n with
      | Some v => r <-? format_pieces rest kw ;; Ok (v ++ r)
      | None => Raise (KeyError n)
      end
  end.

(** [template.format(k=v, ...)] *)
Definition str_format (template : list piece) (kwargs : list (string * string)) : result string :=
  kw <-? keywords kwargs ;;
  format_pieces template kw.

(** ** What the asset cache is handed *)

Inductive CacheAsset : Type :=
  | Plain (a : Asset)
  | Thumb (t : ThumbnailAsset.t)
  | Javascript (j : JavascriptAsset.t).

Definition get_name (a : CacheAsset) : string :=
  match a with
  | Plain a => asset_name a
  | Thumb t => ThumbnailAsset.get_name t
  | Javascript j => JavascriptAsset.get_name j
  end.

(** ** class Thumbnail *)

Module Thumbnail.

(** The [_asset_cache] field, the asset cache object of
    [optimizations/assetcache.py], is left out. *)
Record t : Type := mk {
  _asset : CacheAsset;
  name : string;
  width : option Z;
  height : option Z
}.

(** [Thumbnail.__init__] *)
Definition __init__ (asset : CacheAsset) (width height : option Z) : t :=
  {| _asset := asset; name := get_name asset; width := width; height := height |}.

End Thumbnail.

(** ** class ThumbnailCache *)

Module ThumbnailCache.

Record t : Type := mk { _size_cache : gmap string Size }.

(** [ThumbnailCache.__init__] *)
Definition __init__ : t := {| _size_cache := ∅ |}.

Definition invalid_method_template : list piece :=
  [Field "method";
   Lit " is not a valid thumbnail method. Should be one of ";
   Field "methods";
   Lit "."].

Section GetThumbnail.
Variable env : Env.
(** [AdaptiveAsset] of [optimizations/assetcache.py] turns what the caller
    passes into an asset. *)
Variable Source : Type.
Variable AdaptiveAsset : Source -> Asset.

Definition get_thumbnail (self : t) (asset : Source)
    (width height : option number) (method : option string) : M (Thumbnail.t * t) :=
  let method := default PROPORTIONAL method in
  method <-
    match _methods env !! method with
    | Some m => ret m
    | None =>
        msg <- lift (str_format invalid_method_template
                       [("method", method);
                        ("method", String.concat ", " (_methods_keys))]) ;;
        raise (ValueError msg)
    end ;;
  let requested_size := Size_new width height in
  (* Adapt the asset. *)
  let asset := AdaptiveAsset asset in
  (* Get the opener. *)
  let asset_id := asset_id asset in
  opener <- image_opener asset ;;
  (* Get the image width and height. *)
  sized <-
    match _size_cache self !! asset_id with
    | Some original_size => ret (original_size, self)
    | None =>
        image_data <- next env opener ;;
        let original_size :=
          Size_new (Some (Int (fst (im_size image_data))))
                   (Some (Int (snd (im_size image_data)))) in
        ret (original_size,
             {| _size_cache := <[asset_id := original_size]> (_size_cache self) |})
    end ;;
  let '(original_size, self) := sized in
  (* Calculate the final width and height of the thumbnail. *)
  display_size <- lift (get_display_size method original_size requested_size) ;;
  data_size <- lift (get_data_size method display_size
                       (SizeM.intersect display_size original_size)) ;;
  (* Check whether we need to make a thumbnail. *)
  let thumbnail_asset :=
    if decide (data_size = original_size) then Plain asset
    else Thumb (ThumbnailAsset.mk asset opener original_size display_size
                  data_size method) in
  (* Get the cached thumbnail. *)
  let 'mkSize display_width display_height := display_size in
  ret (Thumbnail.__init__ thumbnail_asset display_width display_height, self).

End GetThumbnail.

End ThumbnailCache.

(** ** class JavascriptCache *)

Fixpoint mapM {A B} (f : A -> M B) (l : list A) : M (list B) :=
  match l with
  | [] => ret []
  | x :: rest => y <- f x ;; ys <- mapM f rest ;; ret (y :: ys)
  end.

Module JavascriptCache.
Section GetUrls.
(** [self._asset_cache.get_url(asset, force_save=...)], the asset cache of
    [optimizations/assetcache.py]; [None] stands for an argument that is
    not passed. *)
Variable AssetCache_get_url : CacheAsset -> option bool -> M string.
(** [settings.DEBUG] *)
Variable settings_DEBUG : bool.

(** [get_urls]; an optional argument that the caller does not pass is
    [None] and takes the default of the signature. *)
Definition get_urls (assets : list Asset)
    (compile force_save fail_silently : option bool) : M (list string) :=
  let compile := default true compile in
  let force_save := default (negb settings_DEBUG) force_save in
  let fail_silently := default true fail_silently in
  if force_save then
    match assets with
    | _ :: _ =>
        url <- AssetCache_get_url
                 (Javascript (JavascriptAsset.mk assets compile fail_silently))
                 (Some true) ;;
        ret [url]
    | [] => ret []
    end
  else
    mapM (fun asset => AssetCache_get_url (Plain asset) None) assets.

End GetUrls.
End JavascriptCache.

(** ** The asset cache *)

Module AssetCache.
Section WithEnv.
Variable env : Env.
(** The name under which the cache keeps a derivative, made from its
    identifier. *)
Variable cache_name : CacheAsset -> string.

(** Modelled from the spec: [Asset.save] of [optimizations/assetcache.py],
    which is not under src/: an identity derivative is materialized by
    copying the source bytes. *)
Definition Asset_save (a : Asset) (name : string) : M unit :=
  storage.save name (asset_contents a).

(** [asset.save(storage, name)], by the class of the asset. *)
Definition save (asset : CacheAsset) (name : string) : M unit :=
  match asset with
  | Plain a => Asset_save a name
  | Thumb t => ThumbnailAsset.save env t name
  | Javascript j => JavascriptAsset.save env j name
  end.

(** Modelled from the spec: [AssetCache.get_url] of
    [optimizations/assetcache.py], which is not under src/: with
    [force_save] it gives a reference for the identifier of the derivative,
    computing it by materializing the derivative if it is absent from the
    storage; without, it gives a direct reference to the source and never
    runs the transformation. *)
Definition get_url (asset : CacheAsset) (force_save : option bool) : M string :=
  if default false force_save then
    let name := cache_name asset in
    w <- get_world ;;
    match stored w !! name with
    | Some _ => ret tt
    | None => save asset name
    end ;;;
    ret (storage_url env name)
  else
    ret (storage_url env (get_name asset)).

End WithEnv.
End AssetCache.

(** ** Vocabulary of the statements *)

(** The size [get_thumbnail] takes for the image of [asset]: the entry of the
    size cache, or else the size of the image that [Image.open] gives. *)
Definition natural_size (env : Env) (self : ThumbnailCache.t) (asset : Asset) : option Size :=
  match ThumbnailCache._size_cache self !! asset_id asset with
  | Some original_size => Some original_size
  | None =>
      match Image_open_outcome env (asset_path asset) with
      | Opened im => Some (size_of (fst (im_size im)) (snd (im_size im)))
      | CannotOpen _ => None
      end
  end.

(** The display size and the data size that [get_thumbnail] computes for an
    image of size [original_size], its two lines after the sizes are known. *)
Definition thumbnail_sizes (method : ResizeMethod) (original_size requested_size : Size)
    : result (Size * Size) :=
  display_size <-? get_display_size method original_size requested_size ;;
  data_size <-? get_data_size method display_size
                  (SizeM.intersect display_size original_size) ;;
  Ok (display_size, data_size).

(** The display size and the data size held by the asset of a thumbnail
    that has to be made. *)
Definition sizes_of_thumbnail (r : result (Thumbnail.t * ThumbnailCache.t)) : option (Size * Size) :=
  match r with
  | Ok (thumbnail, _) =>
      match Thumbnail._asset thumbnail with
      | Thumb asset =>
          Some (ThumbnailAsset._display_size asset, ThumbnailAsset._data_size asset)
      | _ => None
      end
  | Raise _ => None
  end.

(** [dw x dh] has the aspect ratio of [nw x nh] within integer rounding: one
    of the two dimensions is the other one scaled by the ratio and rounded,
    so it is off by half a pixel at most. *)
Definition keeps_aspect (nw nh dw dh : Z) : Prop :=
  2 * Z.abs (dw * nh - dh * nw) <= nh \/ 2 * Z.abs (dh * nw - dw * nh) <= nw.


(** The events of [evs] are all calls of [Image.open]. *)
Definition only_opens (evs : list Event) : Prop :=
  Forall (fun ev => match ev with EvImageOpen _ => True | _ => False end) evs.

(** Modelled from the spec: [Asset.get_id_params] of
    [optimizations/assetcache.py], which is not under src/: the identifier of
    a transformed derivative depends on the identity of its source asset. *)
Definition Asset_get_id_params (self : ThumbnailAsset.t) : gmap string pyval :=
  {[ "id" := VStr (asset_id (ThumbnailAsset._asset self)) ]}.

(** Modelled from the spec: [GroupedAsset.get_id_params] of
    [optimizations/assetcache.py], which is not under src/: the identifier of
    a grouped derivative depends on the ordered list of the identities of its
    constituents. *)
Definition GroupedAsset_get_id_params (self : JavascriptAsset.t) : gmap string pyval :=
  {[ "assets" := VIds (map asset_id (JavascriptAsset._assets self)) ]}.

(** The base parameters of a grouped asset tell two lists of constituent
    identities apart, under a key that [JavascriptAsset] does not write. *)
Definition tells_order_apart (base : JavascriptAsset.t -> gmap string pyval) : Prop :=
  forall j1 j2 : JavascriptAsset.t,
    map asset_id (JavascriptAsset._assets j1) <> map asset_id (JavascriptAsset._assets j2) ->
    exists key : string, key <> "compile" /\ base j1 !! key <> base j2 !! key.

(** The opener of an asset is live when its generator has not finished. *)
Definition live (opener : Opener) (world : World) : Prop :=
  generators world !! op_ref opener = Some Fresh
  \/ exists im, generators world !! op_ref opener = Some (Yielding im).

(** The opener of an asset yields [im] at its next step: it is suspended with
    that image, or it has not run and [Image.open] gives the image. *)
Definition yields (env : Env) (opener : Opener) (world : World) (im : Image) : Prop :=
  generators world !! op_ref opener = Some (Yielding im)
  \/ (generators world !! op_ref opener = Some Fresh
      /\ Image_open_outcome env (asset_path (op_asset opener)) = Opened im).

(** What [get_thumbnail] makes of the two sizes, once they are computed. *)
Definition thumbnail_of (asset : Asset) (opener : Opener) (method : ResizeMethod)
    (original_size : Size) (sizes : Size * Size) : Thumbnail.t :=
  let '(display_size, data_size) := sizes in
  Thumbnail.__init__
    (if decide (data_size = original_size) then Plain asset
     else Thumb (ThumbnailAsset.mk asset opener original_size display_size
                   data_size method))
    (width display_size) (height display_size).

(** ** Sample worlds *)

(** The empty world. *)
Definition nowhere : World :=
  {| files := ∅; stored := ∅; generators := []; trace := [] |}.

(** Collaborators that never fail, with one 1000 x 500 image behind every
    path. *)
Definition sunny : Env := {|
  Image_open_outcome := fun path => Opened (mkImage path (1000, 500));
  resize_outcome := fun _ _ => None;
  save_outcome := fun _ _ => Written "pixels";
  makedirs_outcome := fun _ => None;
  os_path_dirname := fun path => path;
  storage_path := fun name => "/media/" ++ name;
  storage_url := fun name => "/static/" ++ name;
  communicate_outcome := fun contents => (0, "minified", "")
|}.

(** The same, with a compressor that exits with status 1. *)
Definition broken_compressor : Env := {|
  Image_open_outcome := Image_open_outcome sunny;
  resize_outcome := resize_outcome sunny;
  save_outcome := save_outcome sunny;
  makedirs_outcome := makedirs_outcome sunny;
  os_path_dirname := os_path_dirname sunny;
  storage_path := storage_path sunny;
  storage_url := storage_url sunny;
  communicate_outcome := fun contents => (1, "", "[ERROR] 1:4:syntax error")
|}.

(** The same as [sunny], with a disk that fills up while the image is
    written. *)
Definition full_disk : Env := {|
  Image_open_outcome := Image_open_outcome sunny;
  resize_outcome := resize_outcome sunny;
  save_outcome := fun _ _ => WriteFailed (IOError "No space left on device") (Some "pix");
  makedirs_outcome := makedirs_outcome sunny;
  os_path_dirname := os_path_dirname sunny;
  storage_path := storage_path sunny;
  storage_url := storage_url sunny;
  communicate_outcome := communicate_outcome sunny
|}.

(** The same as [sunny], with files that PIL cannot read as images. *)
Definition unreadable : Env := {|
  Image_open_outcome := fun _ => CannotOpen "cannot identify image file";
  resize_outcome := resize_outcome sunny;
  save_outcome := save_outcome sunny;
  makedirs_outcome := makedirs_outcome sunny;
  os_path_dirname := os_path_dirname sunny;
  storage_path := storage_path sunny;
  storage_url := storage_url sunny;
  communicate_outcome := communicate_outcome sunny
|}.

Definition photo : Asset :=
  {| asset_id := "3f2a"; asset_name := "photo.jpg";
     asset_path := "/srv/media/photo.jpg"; asset_contents := "jpeg" |}.

Definition script_a : Asset :=
  {| asset_id := "a1"; asset_name := "a.js";
     asset_path := "/srv/static/a.js"; asset_contents := "var a = 1" |}.

Definition script_b : Asset :=
  {| asset_id := "b2"; asset_name := "b.js";
     asset_path := "/srv/static/b.js"; asset_contents := "var b = (" |}.

(** A world in which one opener has been made and has not run yet. *)
Definition one_opener : World :=
  {| files := ∅; stored := ∅; generators := [Fresh]; trace := [] |}.

(** The asset of a proportional 200 x 100 thumbnail of [photo], as
    [get_thumbnail] builds it on a hit of the size cache. *)
Definition small_photo (env : Env) : ThumbnailAsset.t :=
  {| ThumbnailAsset._asset := photo;
     ThumbnailAsset._opener := {| op_ref := 0; op_asset := photo |};
     ThumbnailAsset._original_size := size_of 1000 500;
     ThumbnailAsset._display_size := size_of 200 100;
     ThumbnailAsset._data_size := size_of 200 100;
     ThumbnailAsset._method :=
       mkResizeMethod _size_proportional _size (_resize env) "resize" |}.

(** * Properties *)

(** ** Rounding *)

Lemma py_round_upper (q : Q) : (inject_Z (py_round q) - q <= 1 # 2)%Q.
Proof.
  unfold py_round. destruct (Qle_bool 0 q).
  - pose proof (Qfloor_le (q + (1 # 2))). lra.
  - pose proof (Qceiling_lt (q - (1 # 2))) as H.
    unfold Z.sub in H. rewrite inject_Z_plus, inject_Z_opp in H.
    change (inject_Z 1) with 1%Q in H. lra.
Qed.

Lemma py_round_lower (q : Q) : (q - inject_Z (py_round q) <= 1 # 2)%Q.
Proof.
  unfold py_round. destruct (Qle_bool 0 q).
  - pose proof (Qlt_floor (q + (1 # 2))) as H.
    rewrite inject_Z_plus in H. change (inject_Z 1) with 1%Q in H. lra.
  - pose proof (Qle_ceiling (q - (1 # 2))). lra.
Qed.

(** Rounding does not cross an integer. *)
Lemma py_round_le (q : Q) (z : Z) : (q <= inject_Z z)%Q -> py_round q <= z.
Proof.
  intros H. pose proof (py_round_upper q).
  assert (inject_Z (py_round q) < inject_Z (z + 1))%Q as Hlt.
  { rewrite inject_Z_plus. change (inject_Z 1) with 1%Q. lra. }
  rewrite <- Zlt_Qlt in Hlt. lia.
Qed.

Lemma py_round_ge (q : Q) (z : Z) : (inject_Z z <= q)%Q -> z <= py_round q.
Proof.
  intros H. pose proof (py_round_lower q).
  assert (inject_Z (z + - 1) < inject_Z (py_round q))%Q as Hlt.
  { rewrite inject_Z_plus. change (inject_Z (- 1)) with (- (1))%Q. lra. }
  rewrite <- Zlt_Qlt in Hlt. lia.
Qed.

(** The rounding of a fraction [n / d], in integers. *)
Lemma py_round_fraction (n d : Z) (q : Q) :
  0 < d -> (q * inject_Z d == inject_Z n)%Q ->
  2 * Z.abs (py_round q * d - n) <= d.
Proof.
  intros Hd Hq.
  pose proof (py_round_upper q) as Hu. pose proof (py_round_lower q) as Hl.
  set (r := py_round q) in *.
  assert (0 < inject_Z d)%Q as Hd' by (unfold Qlt; simpl; lia).
  assert (inject_Z (2 * (r * d + - n)) <= inject_Z d)%Q as H1.
  { rewrite inject_Z_mult, inject_Z_plus, inject_Z_opp, inject_Z_mult.
    change (inject_Z 2) with 2%Q. rewrite <- Hq. nra. }
  assert (inject_Z (2 * (n + - (r * d))) <= inject_Z d)%Q as H2.
  { rewrite inject_Z_mult, inject_Z_plus, inject_Z_opp, inject_Z_mult.
    change (inject_Z 2) with 2%Q. rewrite <- Hq. nra. }
  rewrite <- Zle_Qle in H1, H2. lia.
Qed.

(** ** Geometry *)

Lemma inject_Z_pos (z : Z) : 0 < z -> (0 < inject_Z z)%Q.
Proof. intros H. unfold Qlt. simpl. lia. Qed.

Lemma aspect_positive (nw nh : Z) :
  0 < nw -> 0 < nh ->
  SizeM.aspect (size_of nw nh) = Ok (inject_Z nw / inject_Z nh)%Q
  /\ (0 < inject_Z nw / inject_Z nh)%Q.
Proof.
  intros Hw Hh.
  assert (0 < inject_Z nh)%Q as Hh' by (apply inject_Z_pos, Hh).
  assert (0 < inject_Z nw)%Q as Hw' by (apply inject_Z_pos, Hw).
  split.
  - unfold SizeM.aspect, size_of, Size_new, fdiv; simpl.
    destruct (Qeq_bool (inject_Z nh) 0) eqn:E; [|reflexivity].
    apply Qeq_bool_iff in E. rewrite E in Hh'. discriminate.
  - apply Qlt_shift_div_l; [exact Hh'|]. lra.
Qed.

(** [constrain] on concrete sizes, with a reference of positive dimensions. *)
Lemma constrain_concrete (w h nw nh : Z) :
  0 < nw -> 0 < nh ->
  SizeM.constrain (mkSize (Some w) (Some h)) (size_of nw nh)
  = Ok (mkSize
          (Some (Z.min (py_round (inject_Z h * (inject_Z nw / inject_Z nh))) w))
          (Some (Z.min (py_round (inject_Z w / (inject_Z nw / inject_Z nh))) h))).
Proof.
  intros Hw Hh. destruct (aspect_positive nw nh Hw Hh) as [Ha Hpos].
  unfold SizeM.constrain. rewrite Ha. simpl. unfold fdiv.
  destruct (Qeq_bool (inject_Z nw / inject_Z nh) 0) eqn:E; [|reflexivity].
  apply Qeq_bool_iff in E. rewrite E in Hpos. discriminate.
Qed.

(** What [constrain] returns: the box, shrunk along one axis to the aspect
    ratio of the reference. *)
Lemma constrain_fits (w h nw nh : Z) :
  0 < nw -> 0 < nh ->
  exists dw dh,
    SizeM.constrain (mkSize (Some w) (Some h)) (size_of nw nh)
    = Ok (mkSize (Some dw) (Some dh))
    /\ keeps_aspect nw nh dw dh /\ dw <= w /\ dh <= h
    /\ (h * nw <= w * nh -> dh = h)
    /\ (w * nh <= h * nw -> dw = w).
Proof.
  intros Hw Hh. destruct (aspect_positive nw nh Hw Hh) as [_ Hpos].
  rewrite constrain_concrete by assumption.
  set (a := (inject_Z nw / inject_Z nh)%Q) in *.
  assert (0 < inject_Z nh)%Q as Hh' by (apply inject_Z_pos, Hh).
  assert (0 < inject_Z nw)%Q as Hw' by (apply inject_Z_pos, Hw).
  assert (a * inject_Z nh == inject_Z nw)%Q as Ha.
  { unfold a. field. lra. }
  assert ((inject_Z h * a) * inject_Z nh == inject_Z (h * nw))%Q as Hha.
  { rewrite inject_Z_mult. rewrite <- Ha. ring. }
  assert ((inject_Z w / a) * inject_Z nw == inject_Z (w * nh))%Q as Hwa.
  { rewrite inject_Z_mult. rewrite <- Ha. field. lra. }
  pose proof (py_round_fraction (h * nw) nh _ Hh Hha) as Rw.
  pose proof (py_round_fraction (w * nh) nw _ Hw Hwa) as Rh.
  eexists _, _. split; [reflexivity|].
  assert (h * nw <= w * nh ->
          Z.min (py_round (inject_Z w / a)) h = h
          /\ py_round (inject_Z h * a) <= w) as Hwide.
  { intros Hle. rewrite Zle_Qle, !inject_Z_mult in Hle. split.
    - apply Z.min_r. apply py_round_ge.
      apply Qle_shift_div_l; [exact Hpos|]. nra.
    - apply py_round_le. nra. }
  assert (w * nh <= h * nw ->
          Z.min (py_round (inject_Z h * a)) w = w
          /\ py_round (inject_Z w / a) <= h) as Htall.
  { intros Hle. rewrite Zle_Qle, !inject_Z_mult in Hle. split.
    - apply Z.min_r. apply py_round_ge. nra.
    - apply py_round_le. apply Qle_shift_div_r; [exact Hpos|]. nra. }
  split; [|split; [apply Z.le_min_r|split; [apply Z.le_min_r|split]]].
  - destruct (Z_le_gt_dec (h * nw) (w * nh)) as [Hle|Hgt].
    + destruct (Hwide Hle) as [-> Hr]. left.
      rewrite Z.min_l by exact Hr. lia.
    + destruct (Htall ltac:(lia)) as [-> Hr]. right.
      rewrite Z.min_l by exact Hr. lia.
  - intros Hle. apply Hwide, Hle.
  - intros Hle. apply Htall, Hle.
Qed.

(** The sizes of the examples: a 1000 x 500 image and a requested width of
    200, proportionally and exactly; a crop to 200 x 300. *)
Example proportional_1000x500_to_200 :
  _size_proportional (size_of 1000 500) (mkSize (Some 200) None) = Ok (size_of 200 100).
Proof. vm_compute. reflexivity. Qed.

Example exact_1000x500_to_200 :
  _size (size_of 1000 500) (mkSize (Some 200) None) = Ok (size_of 200 500).
Proof. reflexivity. Qed.

Example crop_1000x500_to_200x300 :
  _size (size_of 1000 500) (size_of 200 300) = Ok (size_of 200 300)
  /\ _size_proportional (size_of 200 300)
       (SizeM.intersect (size_of 200 300) (size_of 1000 500))
     = Ok (size_of 200 300).
Proof. split; vm_compute; reflexivity. Qed.

(** ** The methods table *)

Section MethodsTable.
Variable env : Env.

Lemma methods_proportional :
  _methods env !! PROPORTIONAL
  = Some (mkResizeMethod _size_proportional _size (_resize env) "resize").
Proof. reflexivity. Qed.

Lemma methods_resize :
  _methods env !! RESIZE = Some (mkResizeMethod _size _size (_resize env) "resized").
Proof. reflexivity. Qed.

Lemma methods_crop :
  _methods env !! CROP
  = Some (mkResizeMethod _size _size_proportional (_resize_cropped env) "crop").
Proof. reflexivity. Qed.

Lemma methods_unknown (key : string) :
  key <> PROPORTIONAL -> key <> RESIZE -> key <> CROP -> _methods env !! key = None.
Proof.
  intros H1 H2 H3. unfold _methods.
  rewrite !lookup_insert_ne by congruence. apply lookup_empty.
Qed.

Lemma methods_inv (key : string) (m : ResizeMethod) :
  _methods env !! key = Some m ->
  (key = PROPORTIONAL /\ m = mkResizeMethod _size_proportional _size (_resize env) "resize")
  \/ (key = RESIZE /\ m = mkResizeMethod _size _size (_resize env) "resized")
  \/ (key = CROP /\ m = mkResizeMethod _size _size_proportional (_resize_cropped env) "crop").
Proof.
  intros H.
  destruct (decide (key = PROPORTIONAL)) as [->|H1].
  { rewrite methods_proportional in H. left. split; congruence. }
  destruct (decide (key = RESIZE)) as [->|H2].
  { rewrite methods_resize in H. right. left. split; congruence. }
  destruct (decide (key = CROP)) as [->|H3].
  { rewrite methods_crop in H. right. right. split; congruence. }
  rewrite methods_unknown in H by assumption. discriminate.
Qed.

End MethodsTable.

(** ** The proportional display size *)

(** [_size_proportional] on a reference of positive dimensions: the result,
    its aspect ratio and its bounds. *)
Lemma size_proportional_fits (nw nh : Z) (requested : Size) :
  0 < nw -> 0 < nh ->
  exists dw dh,
    _size_proportional (size_of nw nh) requested = Ok (mkSize (Some dw) (Some dh))
    /\ keeps_aspect nw nh dw dh
    /\ (forall w, width requested = Some w -> dw <= w)
    /\ (forall h, height requested = Some h -> dh <= h)
    /\ (width requested = None -> height requested = None -> dw = nw /\ dh = nh)
    /\ (width requested = None -> is_Some (height requested) -> dw <= sys_maxint)
    /\ (height requested = None -> is_Some (width requested) -> dh <= sys_maxint).
Proof.
  intros Hw Hh.
  destruct requested as [[w|] [h|]]; unfold _size_proportional; simpl;
    [ destruct (constrain_fits w h nw nh Hw Hh)
        as (dw & dh & -> & Ha & Hdw & Hdh & _)
    | destruct (constrain_fits w sys_maxint nw nh Hw Hh)
        as (dw & dh & -> & Ha & Hdw & Hdh & _)
    | destruct (constrain_fits sys_maxint h nw nh Hw Hh)
        as (dw & dh & -> & Ha & Hdw & Hdh & _)
    | pose (dw := nw); pose (dh := nh);
      assert (keeps_aspect nw nh dw dh) as Ha
        by (left; replace (dw * nh - dh * nw) with 0 by (unfold dw, dh; lia);
            simpl; lia) ];
    exists dw, dh; (split; [reflexivity|]); (split; [exact Ha|]);
    repeat split;
    try (intros ? [= <-]; assumption);
    try (intros; assumption);
    try (intros; discriminate);
    try (intros _ [? [=]]).
Qed.





(** ** What [get_thumbnail] returns *)

Section GetThumbnailFacts.
Variable env : Env.
Variable Source : Type.
Variable AdaptiveAsset : Source -> Asset.

(** Once the method is known and the size of the image is resolved,
    [get_thumbnail] returns the thumbnail that the two computed sizes
    decide; on the way it opens the image at most, and leaves the opener of
    the asset ready to yield. *)
Lemma get_thumbnail_result (self : ThumbnailCache.t) (asset : Source)
    (w h : option number) (method : option string) (m : ResizeMethod)
    (N D S : Size) (world : World) :
  _methods env !! default PROPORTIONAL method = Some m ->
  natural_size env self (AdaptiveAsset asset) = Some N ->
  thumbnail_sizes m N (Size_new w h) = Ok (D, S) ->
  exists opener self' world' evs,
    ThumbnailCache.get_thumbnail env Source AdaptiveAsset self asset w h method world
    = (Ok (Thumbnail.__init__
             (if decide (S = N) then Plain (AdaptiveAsset asset)
              else Thumb (ThumbnailAsset.mk (AdaptiveAsset asset) opener N D S m))
             (width D) (height D), self'), world')
    /\ trace world' = (trace world ++ evs)%list
    /\ only_opens evs
    /\ files world' = files world
    /\ op_asset opener = AdaptiveAsset asset
    /\ (generators world' !! op_ref opener = Some Fresh
        \/ exists im, generators world' !! op_ref opener = Some (Yielding im)).
Proof.
  intros Hm HN Hs.
  unfold thumbnail_sizes in Hs.
  destruct (get_display_size m N (Size_new w h)) as [D'|] eqn:HD; [|discriminate].
  simpl in Hs.
  destruct (get_data_size m D' (SizeM.intersect D' N)) as [S'|] eqn:HS; [|discriminate].
  simpl in Hs. injection Hs as -> ->.
  unfold ThumbnailCache.get_thumbnail, natural_size in *.
  unfold bind at 1. rewrite Hm. unfold ret at 1.
  unfold bind at 1. unfold image_opener.
  unfold bind at 1. unfold get_world at 1.
  unfold bind at 1. unfold set_generators at 1. unfold ret at 1.
  set (opener := {| op_ref := length (generators world);
                    op_asset := AdaptiveAsset asset |}).
  set (world1 := {| files := files world; stored := stored world;
                    generators := (generators world ++ [Fresh])%list;
                    trace := trace world |}).
  assert (generators world1 !! op_ref opener = Some Fresh) as Hfresh.
  { simpl. rewrite lookup_app_r by lia. rewrite Nat.sub_diag. reflexivity. }
  unfold bind at 1.
  destruct (ThumbnailCache._size_cache self !! asset_id (AdaptiveAsset asset))
    as [cached|] eqn:Hc.
  - injection HN as ->. unfold ret at 1.
    unfold bind at 1, lift at 1. rewrite HD.
    unfold bind at 1, lift at 1. rewrite HS.
    destruct D as [dw dh]. unfold ret.
    exists opener, self, world1, []. simpl.
    rewrite app_nil_r. repeat split; auto. constructor.
  - destruct (Image_open_outcome env (asset_path (AdaptiveAsset asset)))
      as [im|msg] eqn:Ho; [|discriminate].
    injection HN as <-. unfold size_of in *.
    unfold bind at 1, next. unfold bind at 1, get_world at 1.
    rewrite Hfresh.
    unfold try_except, bind at 1, PIL.open, bind at 1, emit at 1.
    change (op_asset opener) with (AdaptiveAsset asset). rewrite Ho. unfold ret at 1.
    unfold bind at 1, set_generators at 1. unfold ret at 1. unfold ret at 1.
    unfold bind at 1, lift at 1. rewrite HD.
    unfold bind at 1, lift at 1. rewrite HS.
    destruct D as [dw dh]. unfold ret.
    eexists opener, _, _, [EvImageOpen _]. simpl.
    repeat split; auto.
    + constructor; [exact I|constructor].
    + right. exists im. cbn [generators].
      rewrite list_lookup_insert_eq; [reflexivity|].
      rewrite length_app. simpl. lia.
Qed.

End GetThumbnailFacts.

(** ** The data size *)

(** The data size of the two methods that sample with [_size]: the display
    size, cut down to the natural size. *)
Lemma size_of_intersect (dw dh nw nh : Z) :
  _size (mkSize (Some dw) (Some dh))
        (SizeM.intersect (mkSize (Some dw) (Some dh)) (size_of nw nh))
  = Ok (mkSize (Some (Z.min dw nw)) (Some (Z.min dh nh))).
Proof. reflexivity. Qed.

(** C3, as stated, fails when the display size is larger than the image.  A
    resize of a 1000 x 500 image to 2000 x 250 has display size 2000 x 250
    and data size 1000 x 250; a proportional thumbnail of width 2000 has
    display size 2000 x 1000 and data size 1000 x 500. *)
Lemma data_size_differs_from_display_size :
  sizes_of_thumbnail
    (fst (ThumbnailCache.get_thumbnail sunny Asset (fun a => a)
            ThumbnailCache.__init__ photo (Some (Int 2000)) (Some (Int 250))
            (Some RESIZE) nowhere))
  = Some (size_of 2000 250, size_of 1000 250)
  /\ size_of 1000 250 <> size_of 2000 250
  /\ thumbnail_sizes (mkResizeMethod _size_proportional _size (_resize sunny) "resize")
       (size_of 1000 500) (mkSize (Some 2000) None)
     = Ok (size_of 2000 1000, size_of 1000 500)
  /\ size_of 1000 500 <> size_of 2000 1000.
Proof.
  split; [vm_compute; reflexivity|]. split; [discriminate|].
  split; [vm_compute; reflexivity|discriminate].
Qed.

(** C3, amended: for the proportional and the resize method, a natural size
    of positive dimensions and any requested size, the data size is the
    display size cut down to the natural size, axis by axis; it is the
    display size exactly when the display size is within the natural size on
    both axes. *)
Theorem data_size_is_display_size_within_natural
    (env : Env) (key : string) (m : ResizeMethod) (nw nh : Z) (requested : Size) :
  0 < nw -> 0 < nh ->
  key = PROPORTIONAL \/ key = RESIZE ->
  _methods env !! key = Some m ->
  exists dw dh,
    thumbnail_sizes m (size_of nw nh) requested
    = Ok (mkSize (Some dw) (Some dh), mkSize (Some (Z.min dw nw)) (Some (Z.min dh nh)))
    /\ (mkSize (Some (Z.min dw nw)) (Some (Z.min dh nh)) = mkSize (Some dw) (Some dh)
        <-> dw <= nw /\ dh <= nh).
Proof.
  intros Hw Hh Hkey Hm.
  assert (forall dw dh : Z,
            mkSize (Some (Z.min dw nw)) (Some (Z.min dh nh)) = mkSize (Some dw) (Some dh)
            <-> dw <= nw /\ dh <= nh) as Hiff.
  { intros dw dh. split.
    - intros [= H1 H2]. lia.
    - intros [H1 H2]. rewrite !Z.min_l by assumption. reflexivity. }
  destruct Hkey as [-> | ->].
  - rewrite methods_proportional in Hm. injection Hm as <-.
    destruct (size_proportional_fits nw nh requested Hw Hh) as (dw & dh & HD & _).
    exists dw, dh. split; [|apply Hiff].
    unfold thumbnail_sizes. simpl get_display_size. rewrite HD. reflexivity.
  - rewrite methods_resize in Hm. injection Hm as <-.
    exists (default nw (width requested)), (default nh (height requested)).
    split; [|apply Hiff].
    destruct requested as [[w|] [h|]]; reflexivity.
Qed.

Lemma data_size_is_display_size_within_natural_witness :
  exists dw dh,
    thumbnail_sizes (mkResizeMethod _size _size (_resize sunny) "resized")
      (size_of 1000 500) (mkSize (Some 2000) (Some 250))
    = Ok (mkSize (Some dw) (Some dh),
          mkSize (Some (Z.min dw 1000)) (Some (Z.min dh 500))).
Proof.
  destruct (data_size_is_display_size_within_natural sunny RESIZE
              (mkResizeMethod _size _size (_resize sunny) "resized")
              1000 500 (mkSize (Some 2000) (Some 250)))
    as (dw & dh & H & _); [lia | lia | right; reflexivity | reflexivity |].
  exists dw, dh. exact H.
Defined.

(** ** Thumbnails that need no transformation *)

(** A display size that is the natural size has the natural size as its data
    size, with each of the three methods. *)
Lemma data_size_of_natural_display (env : Env) (key : string) (m : ResizeMethod) (nw nh : Z) :
  0 < nw -> 0 < nh ->
  _methods env !! key = Some m ->
  get_data_size m (size_of nw nh) (SizeM.intersect (size_of nw nh) (size_of nw nh))
  = Ok (size_of nw nh).
Proof.
  intros Hw Hh Hm.
  assert (_size (size_of nw nh) (SizeM.intersect (size_of nw nh) (size_of nw nh))
          = Ok (size_of nw nh)) as Hsize.
  { unfold size_of, Size_new, _size, SizeM.intersect. simpl.
    rewrite !Z.min_id. reflexivity. }
  destruct (methods_inv env key m Hm) as [[_ ->] | [[_ ->] | [_ ->]]];
    simpl get_data_size; try exact Hsize.
  unfold _size_proportional, SizeM.intersect, size_of, Size_new. simpl.
  rewrite !Z.min_id.
  destruct (constrain_fits nw nh nw nh Hw Hh) as (dw & dh & HD & _ & _ & _ & H1 & H2).
  unfold size_of, Size_new in HD. simpl in HD. rewrite HD.
  rewrite H1, H2 by lia. reflexivity.
Qed.

(** A request of the natural size itself, or of no size at all, has the
    natural size as its display size, with each of the three methods. *)
Lemma display_size_of_natural_request (env : Env) (key : string) (m : ResizeMethod)
    (nw nh : Z) (requested : Size) :
  0 < nw -> 0 < nh ->
  _methods env !! key = Some m ->
  requested = size_of nw nh \/ requested = mkSize None None ->
  get_display_size m (size_of nw nh) requested = Ok (size_of nw nh).
Proof.
  intros Hw Hh Hm Hr.
  destruct (methods_inv env key m Hm) as [[_ ->] | [[_ ->] | [_ ->]]];
    cbn [get_display_size]; destruct Hr as [-> | ->]; try reflexivity.
  unfold _size_proportional, size_of, Size_new. simpl.
  destruct (constrain_fits nw nh nw nh Hw Hh) as (dw & dh & HD & _ & _ & _ & H1 & H2).
  unfold size_of, Size_new in HD. simpl in HD. rewrite HD.
  rewrite H1, H2 by lia. reflexivity.
Qed.

(** C5: a request whose display size is the natural size of the image gets
    the source asset itself, under the natural dimensions.  No
    [ThumbnailAsset] is made for it, and [get_thumbnail] calls nothing of PIL
    but [Image.open], which it needs when the size of the image is not in the
    size cache yet. *)
Theorem natural_size_request_returns_source
    (env : Env) (Source : Type) (AdaptiveAsset : Source -> Asset)
    (self : ThumbnailCache.t) (asset : Source) (w h : option number)
    (method : option string) (m : ResizeMethod) (nw nh : Z) (world : World) :
  0 < nw -> 0 < nh ->
  _methods env !! default PROPORTIONAL method = Some m ->
  natural_size env self (AdaptiveAsset asset) = Some (size_of nw nh) ->
  get_display_size m (size_of nw nh) (Size_new w h) = Ok (size_of nw nh) ->
  exists self' world' evs,
    ThumbnailCache.get_thumbnail env Source AdaptiveAsset self asset w h method world
    = (Ok ({| Thumbnail._asset := Plain (AdaptiveAsset asset);
              Thumbnail.name := asset_name (AdaptiveAsset asset);
              Thumbnail.width := Some nw;
              Thumbnail.height := Some nh |}, self'), world')
    /\ trace world' = (trace world ++ evs)%list
    /\ only_opens evs
    /\ files world' = files world.
Proof.
  intros Hw Hh Hm HN HD.
  pose proof (data_size_of_natural_display env _ m nw nh Hw Hh Hm) as HS.
  destruct (get_thumbnail_result env Source AdaptiveAsset self asset w h method m
              (size_of nw nh) (size_of nw nh) (size_of nw nh) world Hm HN)
    as (opener & self' & world' & evs & Hr & Ht & Ho & Hf & _).
  { unfold thumbnail_sizes. rewrite HD. simpl. rewrite HS. reflexivity. }
  exists self', world', evs. repeat split; try assumption.
  rewrite Hr. destruct (decide (size_of nw nh = size_of nw nh)); [reflexivity|congruence].
Qed.

Lemma natural_size_request_returns_source_witness :
  exists self' world',
    ThumbnailCache.get_thumbnail sunny Asset (fun a => a) ThumbnailCache.__init__
      photo (Some (Int 1000)) (Some (Int 500)) (Some CROP) nowhere
    = (Ok ({| Thumbnail._asset := Plain photo;
              Thumbnail.name := "photo.jpg";
              Thumbnail.width := Some 1000;
              Thumbnail.height := Some 500 |}, self'), world').
Proof.
  destruct (natural_size_request_returns_source sunny Asset (fun a => a)
              ThumbnailCache.__init__ photo (Some (Int 1000)) (Some (Int 500))
              (Some CROP) (mkResizeMethod _size _size_proportional
                             (_resize_cropped sunny) "crop")
              1000 500 nowhere)
    as (self' & world' & evs & H & _);
    [lia | lia | reflexivity | reflexivity | reflexivity |].
  exists self', world'. exact H.
Defined.

(** C10: when the data size is the natural size and the display size is not,
    [get_thumbnail] returns the source asset as it is, and the thumbnail
    reports the display size as its width and height: dimensions that are not
    those of the image behind it. *)
Theorem untransformed_thumbnail_reports_display_size
    (env : Env) (Source : Type) (AdaptiveAsset : Source -> Asset)
    (self : ThumbnailCache.t) (asset : Source) (w h : option number)
    (method : option string) (m : ResizeMethod) (N D : Size) (world : World) :
  _methods env !! default PROPORTIONAL method = Some m ->
  natural_size env self (AdaptiveAsset asset) = Some N ->
  thumbnail_sizes m N (Size_new w h) = Ok (D, N) ->
  D <> N ->
  exists self' world',
    ThumbnailCache.get_thumbnail env Source AdaptiveAsset self asset w h method world
    = (Ok ({| Thumbnail._asset := Plain (AdaptiveAsset asset);
              Thumbnail.name := asset_name (AdaptiveAsset asset);
              Thumbnail.width := width D;
              Thumbnail.height := height D |}, self'), world')
    /\ (width D, height D) <> (width N, height N).
Proof.
  intros Hm HN Hs Hne.
  destruct (get_thumbnail_result env Source AdaptiveAsset self asset w h method m
              N D N world Hm HN Hs)
    as (opener & self' & world' & evs & Hr & _).
  exists self', world'. split.
  - rewrite Hr. destruct (decide (N = N)); [reflexivity|congruence].
  - intros [= H1 H2]. apply Hne. destruct D, N. simpl in *. congruence.
Qed.

Lemma untransformed_thumbnail_reports_display_size_witness :
  exists self' world',
    ThumbnailCache.get_thumbnail sunny Asset (fun a => a) ThumbnailCache.__init__
      photo (Some (Int 2000)) None None nowhere
    = (Ok ({| Thumbnail._asset := Plain photo;
              Thumbnail.name := "photo.jpg";
              Thumbnail.width := Some 2000;
              Thumbnail.height := Some 1000 |}, self'), world')
    /\ natural_size sunny ThumbnailCache.__init__ photo = Some (size_of 1000 500).
Proof.
  destruct (untransformed_thumbnail_reports_display_size sunny Asset (fun a => a)
              ThumbnailCache.__init__ photo (Some (Int 2000)) None None
              (mkResizeMethod _size_proportional _size (_resize sunny) "resize")
              (size_of 1000 500) (size_of 2000 1000) nowhere)
    as (self' & world' & H & _);
    [reflexivity | reflexivity | vm_compute; reflexivity | discriminate |].
  exists self', world'. split; [exact H | reflexivity].
Defined.

(** The same happens with a crop that is larger than the image. *)
Example untransformed_crop :
  thumbnail_sizes (mkResizeMethod _size _size_proportional (_resize_cropped sunny) "crop")
    (size_of 1000 500) (size_of 2000 1000)
  = Ok (size_of 2000 1000, size_of 1000 500).
Proof. vm_compute. reflexivity. Qed.

(** ** binary64 *)

Lemma round_half_even_floor (num den : Z) : num / den <= round_half_even num den.
Proof.
  unfold round_half_even.
  destruct (2 * (num mod den) <? den)%Z; [lia|].
  destruct (den <? 2 * (num mod den))%Z; [lia|].
  destruct (Z.even (num / den)); lia.
Qed.

Lemma round_half_even_near (num den : Z) :
  0 < den -> 2 * num - den <= 2 * round_half_even num den * den.
Proof.
  intros Hden. unfold round_half_even.
  pose proof (Z.div_mod num den ltac:(lia)) as Hdm.
  pose proof (Z.mod_pos_bound num den Hden) as Hmod.
  destruct (2 * (num mod den) <? den)%Z eqn:E1; [apply Z.ltb_lt in E1; nia|].
  apply Z.ltb_ge in E1.
  destruct (den <? 2 * (num mod den))%Z eqn:E2; [nia|].
  apply Z.ltb_ge in E2.
  destruct (Z.even (num / den)); nia.
Qed.

(** One exponent below the estimate of [exponent], the scaled fraction is
    above [2 ^ 52]. *)
Lemma scaled_above_one (n d num den : Z) :
  0 < n -> 0 < d ->
  scaled n d (Z.log2 n - Z.log2 d - 52 - 1) = (num, den) ->
  0 < den /\ 2 ^ 52 * den <= num.
Proof.
  intros Hn Hd. unfold scaled.
  pose proof (Z.log2_spec n Hn) as [Hn1 Hn2].
  pose proof (Z.log2_spec d Hd) as [Hd1 Hd2].
  pose proof (Z.log2_nonneg n) as Ha. pose proof (Z.log2_nonneg d) as Hb.
  set (a := Z.log2 n) in *. set (b := Z.log2 d) in *.
  assert (0 < 2 ^ 52) as H52 by reflexivity.
  destruct (0 <=? a - b - 52 - 1)%Z eqn:E; intros [= <- <-].
  - apply Z.leb_le in E.
    assert (0 < 2 ^ (a - b - 52 - 1)) as Hp by (apply Z.pow_pos_nonneg; lia).
    split; [nia|].
    assert (2 ^ 52 * (2 ^ Z.succ b * 2 ^ (a - b - 52 - 1)) = 2 ^ a) as Hsum.
    { rewrite <- !Z.pow_add_r by lia. f_equal. lia. }
    nia.
  - apply Z.leb_gt in E.
    assert (0 < 2 ^ (- (a - b - 52 - 1))) as Hp by (apply Z.pow_pos_nonneg; lia).
    split; [lia|].
    assert (2 ^ a * 2 ^ (- (a - b - 52 - 1)) = 2 ^ 52 * 2 ^ Z.succ b) as Hsum.
    { rewrite <- !Z.pow_add_r by lia. f_equal. lia. }
    nia.
Qed.

Lemma scaled_positive (n d e num den : Z) :
  0 < n -> 0 < d -> scaled n d e = (num, den) -> 0 < num /\ 0 < den.
Proof.
  intros Hn Hd. unfold scaled.
  destruct (0 <=? e)%Z eqn:E; intros [= <- <-].
  - apply Z.leb_le in E.
    assert (0 < 2 ^ e) by (apply Z.pow_pos_nonneg; lia). nia.
  - apply Z.leb_gt in E.
    assert (0 < 2 ^ (- e)) by (apply Z.pow_pos_nonneg; lia). nia.
Qed.

Lemma significand_positive (n d : Z) : 0 < n -> 0 < d -> 0 < significand n d.
Proof.
  intros Hn Hd. unfold significand, exponent.
  destruct (scaled n d (Z.log2 n - Z.log2 d - 52)) as [num0 den0] eqn:E0.
  destruct (scaled_positive n d _ num0 den0 Hn Hd E0) as [Hnum0 Hden0].
  destruct (2 ^ 52 * den0 <=? num0)%Z eqn:Etest.
  - rewrite E0. apply Z.leb_le in Etest.
    pose proof (round_half_even_floor num0 den0) as Hfloor.
    assert (2 ^ 52 <= num0 / den0) by (apply Z.div_le_lower_bound; lia).
    assert (0 < 2 ^ 52) by reflexivity. lia.
  - destruct (scaled n d (Z.log2 n - Z.log2 d - 52 - 1)) as [num1 den1] eqn:E1.
    destruct (scaled_above_one n d num1 den1 Hn Hd E1) as [Hden1 Hle].
    pose proof (round_half_even_floor num1 den1) as Hfloor.
    assert (2 ^ 52 <= num1 / den1) by (apply Z.div_le_lower_bound; lia).
    assert (0 < 2 ^ 52) by reflexivity. lia.
Qed.

(** The significand is normalised, and within half a unit of the scaled
    fraction from below. *)
Lemma significand_lower (n d num den : Z) :
  0 < n -> 0 < d ->
  scaled n d (exponent n d) = (num, den) ->
  0 < den /\ (2 ^ 53 - 1) * num <= 2 ^ 53 * significand n d * den.
Proof.
  intros Hn Hd Hs. unfold significand. rewrite Hs.
  assert (0 < den /\ 2 ^ 52 * den <= num) as [Hden Hnorm].
  { unfold exponent in Hs.
    destruct (scaled n d (Z.log2 n - Z.log2 d - 52)) as [num0 den0] eqn:E0.
    destruct (scaled_positive n d _ num0 den0 Hn Hd E0) as [Hnum0 Hden0].
    destruct (2 ^ 52 * den0 <=? num0)%Z eqn:Etest.
    - rewrite E0 in Hs. injection Hs as <- <-. apply Z.leb_le in Etest. auto.
    - exact (scaled_above_one n d num den Hn Hd Hs). }
  split; [exact Hden|].
  pose proof (round_half_even_near num den Hden) as Hnear.
  change (2 ^ 53) with (2 * 2 ^ 52). nia.
Qed.

(** Rounding to binary64 takes less than one part in [2 ^ 53] off a positive
    number. *)
Lemma double_lower (q : Q) :
  (0 < q)%Q -> (inject_Z (2 ^ 53 - 1) * q <= inject_Z (2 ^ 53) * double q)%Q.
Proof.
  destruct q as [[|n|n] d]; unfold Qlt; cbn [Qnum Qden]; intros Hq; try lia.
  unfold double. cbn [Qnum Qden].
  destruct (scaled (Z.pos n) (Z.pos d) (exponent (Z.pos n) (Z.pos d)))
    as [num den] eqn:Hs.
  destruct (significand_lower (Z.pos n) (Z.pos d) num den ltac:(lia) ltac:(lia) Hs)
    as [Hden Hlow].
  set (m := significand (Z.pos n) (Z.pos d)) in *.
  set (e := exponent (Z.pos n) (Z.pos d)) in *.
  unfold scaled in Hs. unfold times_pow2.
  destruct (0 <=? e)%Z eqn:E; injection Hs as <- <-.
  - unfold Qle, Qmult, inject_Z. cbn [Qnum Qden].
    rewrite !Pos.mul_1_l. nia.
  - apply Z.leb_gt in E.
    assert (0 < 2 ^ (- e)) as Hp by (apply Z.pow_pos_nonneg; lia).
    unfold Qle, Qmult, inject_Z. cbn [Qnum Qden].
    rewrite !Pos.mul_1_l. rewrite Z2Pos.id by exact Hp. nia.
Qed.

(** A positive number does not round to 0. *)
Lemma double_positive (q : Q) : (0 < q)%Q -> (0 < double q)%Q.
Proof.
  destruct q as [[|n|n] d]; unfold Qlt; cbn [Qnum Qden]; intros Hq; try lia.
  unfold double. cbn [Qnum Qden].
  pose proof (significand_positive (Zpos n) (Zpos d) ltac:(lia) ltac:(lia)) as Hm.
  unfold times_pow2.
  destruct (0 <=? exponent (Z.pos n) (Z.pos d))%Z eqn:E.
  - apply Z.leb_le in E.
    assert (0 < 2 ^ exponent (Z.pos n) (Z.pos d)) by (apply Z.pow_pos_nonneg; lia).
    cbn [inject_Z Qnum Qden]. nia.
  - cbn [Qnum Qden]. lia.
Qed.

Lemma round_half_even_near_above (num den : Z) :
  0 < den -> 2 * round_half_even num den * den <= 2 * num + den.
Proof.
  intros Hden. unfold round_half_even.
  pose proof (Z.div_mod num den ltac:(lia)) as Hdm.
  pose proof (Z.mod_pos_bound num den Hden) as Hmod.
  destruct (2 * (num mod den) <? den)%Z eqn:E1; [nia|].
  apply Z.ltb_ge in E1.
  destruct (den <? 2 * (num mod den))%Z eqn:E2; [apply Z.ltb_lt in E2; nia|].
  apply Z.ltb_ge in E2.
  destruct (Z.even (num / den)); nia.
Qed.

Lemma significand_upper (n d num den : Z) :
  0 < n -> 0 < d ->
  scaled n d (exponent n d) = (num, den) ->
  0 < den /\ 2 ^ 53 * significand n d * den <= (2 ^ 53 + 1) * num.
Proof.
  intros Hn Hd Hs. unfold significand. rewrite Hs.
  assert (0 < den /\ 2 ^ 52 * den <= num) as [Hden Hnorm].
  { unfold exponent in Hs.
    destruct (scaled n d (Z.log2 n - Z.log2 d - 52)) as [num0 den0] eqn:E0.
    destruct (scaled_positive n d _ num0 den0 Hn Hd E0) as [Hnum0 Hden0].
    destruct (2 ^ 52 * den0 <=? num0)%Z eqn:Etest.
    - rewrite E0 in Hs. injection Hs as <- <-. apply Z.leb_le in Etest. auto.
    - exact (scaled_above_one n d num den Hn Hd Hs). }
  split; [exact Hden|].
  pose proof (round_half_even_near_above num den Hden) as Hnear.
  change (2 ^ 53) with (2 * 2 ^ 52). nia.
Qed.

(** ... and adds less than one part in [2 ^ 53] to it. *)
Lemma double_upper (q : Q) :
  (0 < q)%Q -> (inject_Z (2 ^ 53) * double q <= inject_Z (2 ^ 53 + 1) * q)%Q.
Proof.
  destruct q as [[|n|n] d]; unfold Qlt; cbn [Qnum Qden]; intros Hq; try lia.
  unfold double. cbn [Qnum Qden].
  destruct (scaled (Z.pos n) (Z.pos d) (exponent (Z.pos n) (Z.pos d)))
    as [num den] eqn:Hs.
  destruct (significand_upper (Z.pos n) (Z.pos d) num den ltac:(lia) ltac:(lia) Hs)
    as [Hden Hup].
  set (m := significand (Z.pos n) (Z.pos d)) in *.
  set (e := exponent (Z.pos n) (Z.pos d)) in *.
  unfold scaled in Hs. unfold times_pow2.
  destruct (0 <=? e)%Z eqn:E; injection Hs as <- <-.
  - unfold Qle, Qmult, inject_Z. cbn [Qnum Qden].
    rewrite !Pos.mul_1_l. nia.
  - apply Z.leb_gt in E.
    assert (0 < 2 ^ (- e)) as Hp by (apply Z.pow_pos_nonneg; lia).
    unfold Qle, Qmult, inject_Z. cbn [Qnum Qden].
    rewrite !Pos.mul_1_l. rewrite Z2Pos.id by exact Hp. nia.
Qed.

Lemma round_half_even_one (num : Z) : round_half_even num 1 = num.
Proof.
  unfold round_half_even. rewrite Z.mod_1_r, Z.div_1_r. reflexivity.
Qed.

(** A positive integer below [2 ^ 53] is a binary64 number. *)
Lemma double_of_integer (z : Z) :
  0 < z < 2 ^ 53 -> (double (inject_Z z) == inject_Z z)%Q.
Proof.
  intros [Hpos Hmax]. destruct z as [|p|p]; try lia.
  unfold double, inject_Z. cbn [Qnum Qden].
  pose proof (Z.log2_spec (Z.pos p) Hpos) as [Hlow _].
  assert (Z.log2 (Z.pos p) < 53) as Hlog by (apply Z.log2_lt_pow2; assumption).
  pose proof (Z.log2_nonneg (Z.pos p)) as Hlog0.
  set (k := 52 - Z.log2 (Z.pos p)).
  assert (0 <= k) as Hk by (unfold k; lia).
  assert (0 < 2 ^ k) as Hp by (apply Z.pow_pos_nonneg; lia).
  assert (2 ^ Z.log2 (Z.pos p) * 2 ^ k = 2 ^ 52) as Hsum.
  { rewrite <- Z.pow_add_r by lia. f_equal. unfold k. lia. }
  assert (scaled (Z.pos p) 1 (- k) = (Z.pos p * 2 ^ k, 1)) as Hs.
  { unfold scaled. destruct (0 <=? - k)%Z eqn:E.
    - apply Z.leb_le in E. replace k with 0 by lia.
      change (2 ^ (- 0)) with 1. change (2 ^ 0) with 1. f_equal; lia.
    - rewrite Z.opp_involutive. reflexivity. }
  assert (exponent (Z.pos p) 1 = - k) as He.
  { unfold exponent. change (Z.log2 1) with 0.
    replace (Z.log2 (Z.pos p) - 0 - 52) with (- k) by (unfold k; lia).
    rewrite Hs.
    destruct (2 ^ 52 * 1 <=? Z.pos p * 2 ^ k)%Z eqn:E; [reflexivity|].
    apply Z.leb_gt in E. nia. }
  assert (significand (Z.pos p) 1 = Z.pos p * 2 ^ k) as Hm.
  { unfold significand. rewrite He, Hs. apply round_half_even_one. }
  rewrite He, Hm. unfold times_pow2.
  destruct (0 <=? - k)%Z eqn:E.
  - apply Z.leb_le in E. replace k with 0 by lia.
    change (2 ^ 0) with 1. change (2 ^ (- 0)) with 1.
    rewrite !Z.mul_1_r. reflexivity.
  - rewrite Z.opp_involutive. unfold Qeq. cbn [Qnum Qden].
    rewrite Z2Pos.id by exact Hp. lia.
Qed.

(** Three roundings take less than a pixel off a size below [2 ^ 50]. *)
Lemma three_roundings (c t v : Q) :
  (0 <= c <= 1)%Q -> (0 <= t)%Q -> ((1 - c) * t <= 1 # 8)%Q ->
  (c * (c * (c * t)) <= v)%Q -> (t - 1 <= v)%Q.
Proof.
  intros [Hc0 Hc1] Ht Hk Hv.
  assert (t - (1 # 8) <= c * t)%Q as H1 by lra.
  assert (0 <= c * t)%Q as H1' by nra.
  assert ((1 - c) * (c * t) <= 1 # 8)%Q as Hk2 by nra.
  assert (c * t - (1 # 8) <= c * (c * t))%Q as H2 by lra.
  assert (0 <= c * (c * t))%Q as H2' by nra.
  assert ((1 - c) * (c * (c * t)) <= 1 # 8)%Q as Hk3 by nra.
  lra.
Qed.

(** ** The crop method *)


(** The aspect ratio of a size of positive dimensions, as the machine has
    it, is a positive number. *)
Lemma aspect_binary64_positive (w h : Z) :
  0 < w -> 0 < h ->
  aspect_binary64 (size_of w h)
  = Ok (double (double (inject_Z w) / double (inject_Z h)))
  /\ (0 < double (inject_Z w) / double (inject_Z h))%Q
  /\ (0 < double (double (inject_Z w) / double (inject_Z h)))%Q.
Proof.
  intros Hw Hh.
  pose proof (double_positive _ (inject_Z_pos w Hw)) as Hdw.
  pose proof (double_positive _ (inject_Z_pos h Hh)) as Hdh.
  assert (0 < double (inject_Z w) / double (inject_Z h))%Q as Hq.
  { apply Qlt_shift_div_l; [exact Hdh|]. lra. }
  split; [|split; [exact Hq|apply double_positive, Hq]].
  unfold aspect_binary64, size_of, Size_new.
  cbn [width height fmap option_fmap option_map int float rbind]. unfold fdiv.
  destruct (Qeq_bool (double (inject_Z h)) 0) eqn:E; [|reflexivity].
  apply Qeq_bool_iff in E. rewrite E in Hdh. discriminate.
Qed.

Section Crop.
Variable env : Env.


(** When PIL resizes the image without an error, [_resize_cropped] returns
    an image. *)
Lemma resize_cropped_returns (image : Image) (D : Size) (nw nh tw th : Z) (world : World) :
  0 < nw -> 0 < nh -> 0 < tw -> 0 < th ->
  (forall size, resize_outcome env image size = None) ->
  exists out world',
    _resize_cropped env image (size_of nw nh) D (size_of tw th) world = (Ok out, world').
Proof.
  intros Hnw Hnh Htw Hth Hpil.
  destruct (aspect_binary64_positive nw nh Hnw Hnh) as (Ha & _ & Hdpos).
  destruct (aspect_binary64_positive tw th Htw Hth) as (Hta & _ & _).
  set (a := double (double (inject_Z nw) / double (inject_Z nh))) in *.
  unfold _resize_cropped. rewrite Ha, Hta.
  unfold bind at 1, lift at 1. unfold bind at 1, lift at 1.
  unfold size_of at 1 2, Size_new at 1 2. cbn [width height fmap option_fmap option_map int].
  destruct (Qlt_le_dec _ _) as [Hwide|Htall].
  - unfold bind at 1, ret at 1.
    unfold bind at 1, PIL.resize, bind at 1, emit at 1.
    cbn [width height Size_new fmap option_fmap option_map]. rewrite Hpil.
    unfold ret at 1. unfold PIL.crop, bind, emit, ret. eauto.
  - unfold bind at 1. unfold bind at 1, lift at 1, fdiv.
    destruct (Qeq_bool a 0) eqn:E.
    { apply Qeq_bool_iff in E. rewrite E in Hdpos. discriminate. }
    unfold ret at 1.
    unfold bind at 1, PIL.resize, bind at 1, emit at 1.
    cbn [width height Size_new fmap option_fmap option_map]. rewrite Hpil.
    unfold ret at 1. unfold PIL.crop, bind, emit, ret. eauto.
Qed.

End Crop.




(** ** Identifier parameters *)

Section IdParamsFacts.
Variable base : ThumbnailAsset.t -> gmap string pyval.
Variable grouped : JavascriptAsset.t -> gmap string pyval.

Lemma thumbnail_params_width (self : ThumbnailAsset.t) :
  ThumbnailAsset.get_id_params base self !! "width"
  = Some (of_option (width (ThumbnailAsset._display_size self))).
Proof.
  unfold ThumbnailAsset.get_id_params.
  rewrite !lookup_insert_ne by discriminate. apply lookup_insert_eq.
Qed.

Lemma thumbnail_params_height (self : ThumbnailAsset.t) :
  ThumbnailAsset.get_id_params base self !! "height"
  = Some (of_option (height (ThumbnailAsset._display_size self))).
Proof.
  unfold ThumbnailAsset.get_id_params.
  rewrite !lookup_insert_ne by discriminate. apply lookup_insert_eq.
Qed.

Lemma thumbnail_params_method (self : ThumbnailAsset.t) :
  ThumbnailAsset.get_id_params base self !! "method"
  = Some (VStr (hash_key (ThumbnailAsset._method self))).
Proof. unfold ThumbnailAsset.get_id_params. apply lookup_insert_eq. Qed.

Lemma javascript_params_compile (self : JavascriptAsset.t) :
  JavascriptAsset.get_id_params grouped self !! "compile"
  = Some (VBool (JavascriptAsset._compile self)).
Proof. unfold JavascriptAsset.get_id_params. apply lookup_insert_eq. Qed.

Lemma javascript_params_base (self : JavascriptAsset.t) (key : string) :
  key <> "compile" ->
  JavascriptAsset.get_id_params grouped self !! key = grouped self !! key.
Proof.
  intros H. unfold JavascriptAsset.get_id_params. apply lookup_insert_ne. congruence.
Qed.

End IdParamsFacts.

Lemma of_option_inj (a b : option Z) : of_option a = of_option b -> a = b.
Proof. destruct a, b; simpl; congruence. Qed.

(** The three methods of the table have three hash keys. *)
Lemma hash_keys_differ (env : Env) (k1 k2 : string) (m1 m2 : ResizeMethod) :
  _methods env !! k1 = Some m1 -> _methods env !! k2 = Some m2 ->
  k1 <> k2 -> hash_key m1 <> hash_key m2.
Proof.
  intros H1 H2 Hne.
  destruct (methods_inv env k1 m1 H1) as [[-> ->] | [[-> ->] | [-> ->]]];
    destruct (methods_inv env k2 m2 H2) as [[-> ->] | [[-> ->] | [-> ->]]];
    simpl; congruence.
Qed.

Lemma GroupedAsset_tells_order_apart : tells_order_apart GroupedAsset_get_id_params.
Proof.
  intros j1 j2 Hne. exists "assets". split; [discriminate|].
  unfold GroupedAsset_get_id_params. rewrite !lookup_singleton_eq. congruence.
Qed.

(** C1: the parameter map of a derivative is a function of the identities of
    its sources and of its parameters, and of nothing else: two thumbnail
    assets with the same base parameters, display size and hash key have the
    same map, whatever their openers and data sizes, and so have two
    javascript assets with the same base parameters and compile flag.  A
    change of the display width, of the display height, of the method, of the
    compile flag or of the order of the sources changes the map.  The base
    parameters are those of the classes of [optimizations/assetcache.py]; of
    them the statement takes that those of a grouped asset tell the order of
    its constituents apart. *)
Theorem id_params_deterministic_and_sensitive
    (base : ThumbnailAsset.t -> gmap string pyval)
    (grouped : JavascriptAsset.t -> gmap string pyval) :
  tells_order_apart grouped ->
  (forall t1 t2 : ThumbnailAsset.t,
     base t1 = base t2 ->
     ThumbnailAsset._display_size t1 = ThumbnailAsset._display_size t2 ->
     hash_key (ThumbnailAsset._method t1) = hash_key (ThumbnailAsset._method t2) ->
     ThumbnailAsset.get_id_params base t1 = ThumbnailAsset.get_id_params base t2)
  /\ (forall j1 j2 : JavascriptAsset.t,
        grouped j1 = grouped j2 ->
        JavascriptAsset._compile j1 = JavascriptAsset._compile j2 ->
        JavascriptAsset.get_id_params grouped j1 = JavascriptAsset.get_id_params grouped j2)
  /\ (forall t1 t2 : ThumbnailAsset.t,
        width (ThumbnailAsset._display_size t1) <> width (ThumbnailAsset._display_size t2) ->
        ThumbnailAsset.get_id_params base t1 <> ThumbnailAsset.get_id_params base t2)
  /\ (forall t1 t2 : ThumbnailAsset.t,
        height (ThumbnailAsset._display_size t1) <> height (ThumbnailAsset._display_size t2) ->
        ThumbnailAsset.get_id_params base t1 <> ThumbnailAsset.get_id_params base t2)
  /\ (forall (env : Env) (k1 k2 : string) (t1 t2 : ThumbnailAsset.t),
        _methods env !! k1 = Some (ThumbnailAsset._method t1) ->
        _methods env !! k2 = Some (ThumbnailAsset._method t2) ->
        k1 <> k2 ->
        ThumbnailAsset.get_id_params base t1 <> ThumbnailAsset.get_id_params base t2)
  /\ (forall j1 j2 : JavascriptAsset.t,
        JavascriptAsset._compile j1 <> JavascriptAsset._compile j2 ->
        JavascriptAsset.get_id_params grouped j1 <> JavascriptAsset.get_id_params grouped j2)
  /\ (forall j1 j2 : JavascriptAsset.t,
        map asset_id (JavascriptAsset._assets j1) <> map asset_id (JavascriptAsset._assets j2) ->
        JavascriptAsset.get_id_params grouped j1 <> JavascriptAsset.get_id_params grouped j2).
Proof.
  intros Horder. repeat split.
  - intros t1 t2 Hb Hd Hk. unfold ThumbnailAsset.get_id_params.
    rewrite Hb, Hd, Hk. reflexivity.
  - intros j1 j2 Hb Hc. unfold JavascriptAsset.get_id_params.
    rewrite Hb, Hc. reflexivity.
  - intros t1 t2 Hne Heq. apply Hne, of_option_inj.
    pose proof (thumbnail_params_width base t1) as H1.
    rewrite Heq, thumbnail_params_width in H1. congruence.
  - intros t1 t2 Hne Heq. apply Hne, of_option_inj.
    pose proof (thumbnail_params_height base t1) as H1.
    rewrite Heq, thumbnail_params_height in H1. congruence.
  - intros env k1 k2 t1 t2 H1 H2 Hne Heq.
    apply (hash_keys_differ env k1 k2 _ _ H1 H2 Hne).
    pose proof (thumbnail_params_method base t1) as Hm.
    rewrite Heq, thumbnail_params_method in Hm. congruence.
  - intros j1 j2 Hne Heq. apply Hne.
    pose proof (javascript_params_compile grouped j1) as Hc.
    rewrite Heq, javascript_params_compile in Hc. congruence.
  - intros j1 j2 Hne Heq.
    destruct (Horder j1 j2 Hne) as (key & Hkey & Hdiff). apply Hdiff.
    rewrite <- !(javascript_params_base grouped _ key Hkey), Heq. reflexivity.
Qed.

Lemma id_params_deterministic_and_sensitive_witness :
  JavascriptAsset.get_id_params GroupedAsset_get_id_params
    (JavascriptAsset.mk [script_a; script_b] true true)
  <> JavascriptAsset.get_id_params GroupedAsset_get_id_params
       (JavascriptAsset.mk [script_b; script_a] true true).
Proof.
  destruct (id_params_deterministic_and_sensitive
              Asset_get_id_params GroupedAsset_get_id_params
              GroupedAsset_tells_order_apart)
    as (_ & _ & _ & _ & _ & _ & H).
  apply H. simpl. discriminate.
Defined.

(** ** Unknown method names *)

(** The message that the [ValueError] of [get_thumbnail] is meant to carry
    is made when the second keyword is spelt [methods]. *)
Example invalid_method_message_meant :
  str_format ThumbnailCache.invalid_method_template
    [("method", "bogus"); ("methods", String.concat ", " _methods_keys)]
  = Ok "bogus is not a valid thumbnail method. Should be one of proportional, resize, crop.".
Proof. vm_compute. reflexivity. Qed.

(** As it is written, the call gives the keyword [method] twice and none for
    the field [methods]: there is no message, whatever the name is. *)
Lemma invalid_method_message (method : string) :
  str_format ThumbnailCache.invalid_method_template
    [("method", method); ("method", String.concat ", " _methods_keys)]
  = Raise (SyntaxError "keyword argument repeated").
Proof.
  unfold str_format, keywords. cbn [map fst repeated].
  rewrite bool_decide_eq_true_2 by (apply list_elem_of_here). reflexivity.
Qed.

(** Were the repeated keyword let through, with either of its values, the
    field [methods] would still have none. *)
Lemma invalid_method_field_unbound (kw : gmap string string) (value : string) :
  kw !! "method" = Some value -> kw !! "methods" = None ->
  format_pieces ThumbnailCache.invalid_method_template kw = Raise (KeyError "methods").
Proof.
  intros Hmethod Hmethods. unfold ThumbnailCache.invalid_method_template.
  cbn [format_pieces]. rewrite Hmethod, Hmethods. reflexivity.
Qed.

(** For a name that is not in the table, [get_thumbnail] makes no thumbnail,
    and does not get as far as its [ValueError]. *)
Lemma get_thumbnail_unknown_method
    (env : Env) (Source : Type) (AdaptiveAsset : Source -> Asset)
    (self : ThumbnailCache.t) (asset : Source) (w h : option number)
    (method : string) (world : World) :
  _methods env !! method = None ->
  ThumbnailCache.get_thumbnail env Source AdaptiveAsset self asset w h (Some method) world
  = (Raise (SyntaxError "keyword argument repeated"), world).
Proof.
  intros Hm. unfold ThumbnailCache.get_thumbnail.
  change (default PROPORTIONAL (Some method)) with method.
  unfold bind at 1. rewrite Hm.
  unfold bind at 1, lift at 1. rewrite invalid_method_message. reflexivity.
Qed.

(** C6, which the code misses: for the unknown method name [bogus],
    [get_thumbnail] makes no thumbnail, but what it raises is not a
    [ValueError] with the valid names: the call that formats the message
    repeats the keyword [method] and never gives [methods]. *)
Theorem get_thumbnail_bogus_method :
  _methods sunny !! "bogus" = None
  /\ ThumbnailCache.get_thumbnail sunny Asset (fun a => a) ThumbnailCache.__init__
       photo (Some (Int 100)) (Some (Int 100)) (Some "bogus") nowhere
     = (Raise (SyntaxError "keyword argument repeated"), nowhere)
  /\ forall msg : string,
       fst (ThumbnailCache.get_thumbnail sunny Asset (fun a => a) ThumbnailCache.__init__
              photo (Some (Int 100)) (Some (Int 100)) (Some "bogus") nowhere)
       <> Raise (ValueError msg).
Proof.
  assert (_methods sunny !! "bogus" = None) as Hm
    by (apply methods_unknown; discriminate).
  split; [exact Hm|].
  rewrite (get_thumbnail_unknown_method sunny Asset (fun a => a) _ _ _ _ _ _ Hm).
  split; [reflexivity|]. intros msg. simpl. discriminate.
Qed.

(** ** A compressor that fails *)

Section CompressorFails.
Variable env : Env.

(** [JavascriptAsset.save] of an asset to compile, when the compressor exits
    with a status other than 0: the diagnostics are logged, and then the
    flag [_fail_silently] decides. *)
Lemma javascript_save_after_failure (self : JavascriptAsset.t) (name : string)
    (world : World) (returncode : Z) (stdoutdata stderrdata : string) :
  JavascriptAsset._compile self = true ->
  communicate_outcome env (JavascriptAsset.get_contents self)
  = (returncode, stdoutdata, stderrdata) ->
  returncode <> 0 ->
  let contents := JavascriptAsset.get_contents self in
  let logged := (trace world ++ [EvCommunicate contents; EvLoggerError stderrdata])%list in
  JavascriptAsset.save env self name world
  = if JavascriptAsset._fail_silently self
    then (Ok tt,
          {| files := files world;
             stored := <[name := contents]> (stored world);
             generators := generators world;
             trace := (logged ++ [EvStorageSave name contents])%list |})
    else (Raise (JavascriptError "Error while compiling javascript."),
          {| files := files world;
             stored := stored world;
             generators := generators world;
             trace := logged |}).
Proof.
  intros Hc Hout Hrc. cbv zeta.
  unfold JavascriptAsset.save. rewrite Hc.
  unfold bind at 1, JavascriptAsset.communicate, bind at 1, emit at 1, ret at 1.
  rewrite Hout.
  assert ((returncode =? 0)%Z = false) as -> by (apply Z.eqb_neq; exact Hrc).
  cbn [negb].
  unfold bind at 1. unfold bind at 1, JavascriptAsset.logger_error, emit at 1.
  destruct (JavascriptAsset._fail_silently self); cbn [negb].
  - unfold bind at 1, ret at 1, ret at 1.
    unfold storage.save, bind, emit, set_stored.
    cbn [files stored generators trace].
    rewrite <- !app_assoc. reflexivity.
  - unfold bind at 1, raise.
    cbn [files stored generators trace].
    rewrite <- !app_assoc. reflexivity.
Qed.

End CompressorFails.

(** C7: when an asset is to be compiled and the compressor exits with a
    status other than 0, [JavascriptAsset.save] logs what the compressor
    wrote on its standard error; it raises a [JavascriptError] exactly when
    [_fail_silently] is not set, and with [_fail_silently] set it saves the
    uncompiled concatenation under the name it was given. *)
Theorem javascript_save_compiler_failure
    (env : Env) (self : JavascriptAsset.t) (name : string) (world : World)
    (returncode : Z) (stdoutdata stderrdata : string) :
  JavascriptAsset._compile self = true ->
  communicate_outcome env (JavascriptAsset.get_contents self)
  = (returncode, stdoutdata, stderrdata) ->
  returncode <> 0 ->
  let contents := JavascriptAsset.get_contents self in
  let result := JavascriptAsset.save env self name world in
  EvLoggerError stderrdata ∈ trace (snd result)
  /\ ((exists ex, fst result = Raise ex) <-> JavascriptAsset._fail_silently self = false)
  /\ (JavascriptAsset._fail_silently self = false ->
      fst result = Raise (JavascriptError "Error while compiling javascript.")
      /\ stored (snd result) = stored world
      /\ trace (snd result)
         = (trace world ++ [EvCommunicate contents; EvLoggerError stderrdata])%list)
  /\ (JavascriptAsset._fail_silently self = true ->
      fst result = Ok tt
      /\ stored (snd result) = <[name := contents]> (stored world)
      /\ trace (snd result)
         = (trace world ++ [EvCommunicate contents; EvLoggerError stderrdata;
                            EvStorageSave name contents])%list).
Proof.
  intros Hc Hout Hrc. cbv zeta.
  rewrite (javascript_save_after_failure env self name world _ _ _ Hc Hout Hrc).
  destruct (JavascriptAsset._fail_silently self); cbn [fst snd trace stored].
  - split; [set_solver|]. split; [|split].
    + split; [intros [ex [=]]|discriminate].
    + discriminate.
    + intros _. rewrite <- app_assoc. auto.
  - split; [set_solver|]. split; [|split].
    + split; [reflexivity|eauto].
    + auto.
    + discriminate.
Qed.

Lemma javascript_save_compiler_failure_witness :
  fst (JavascriptAsset.save broken_compressor
         (JavascriptAsset.mk [script_a; script_b] true false) "cache/ab.js" nowhere)
  = Raise (JavascriptError "Error while compiling javascript.").
Proof.
  destruct (javascript_save_compiler_failure broken_compressor
              (JavascriptAsset.mk [script_a; script_b] true false) "cache/ab.js" nowhere
              1 "" "[ERROR] 1:4:syntax error")
    as (_ & _ & H & _); [reflexivity | reflexivity | lia |].
  apply H. reflexivity.
Defined.

(** ** [get_urls] and the compressor *)

(** C8, as stated, fails: a call of [get_urls] that passes no
    [fail_silently], in production, hands the asset cache a javascript asset
    with [_fail_silently] set; when the compressor exits with status 1,
    saving that asset raises nothing: the diagnostics of the compressor are
    logged and the uncompiled concatenation is saved. *)
Lemma get_urls_default_falls_back :
  let asset := JavascriptAsset.mk [script_a; script_b] true true in
  (forall get_url : CacheAsset -> option bool -> M string,
     JavascriptCache.get_urls get_url false [script_a; script_b] None None None
     = (url <- get_url (Javascript asset) (Some true) ;; ret [url]))
  /\ JavascriptAsset.save broken_compressor asset "cache/ab.js" nowhere
     = (Ok tt,
        {| files := ∅;
           stored := {[ "cache/ab.js" := "var a = 1;var b = (" ]};
           generators := [];
           trace := [EvCommunicate "var a = 1;var b = (";
                     EvLoggerError "[ERROR] 1:4:syntax error";
                     EvStorageSave "cache/ab.js" "var a = 1;var b = ("] |}).
Proof. split; [intros get_url; reflexivity | vm_compute; reflexivity]. Qed.

(** The same call, run over the asset cache: it returns the URL of the
    fallback. *)
Example get_urls_default_over_the_cache :
  let result :=
    JavascriptCache.get_urls
      (AssetCache.get_url broken_compressor (fun _ => "cache/ab.js")) false
      [script_a; script_b] None None None nowhere in
  fst result = Ok ["/static/cache/ab.js"]
  /\ stored (snd result) !! "cache/ab.js" = Some "var a = 1;var b = ("
  /\ trace (snd result)
     = [EvCommunicate "var a = 1;var b = (";
        EvLoggerError "[ERROR] 1:4:syntax error";
        EvStorageSave "cache/ab.js" "var a = 1;var b = ("].
Proof. vm_compute. repeat split. Qed.

(** C8, amended: [get_urls] hands the asset cache one javascript asset whose
    [_fail_silently] is the argument [fail_silently], and [True] when the
    caller passes none.  When the compressor fails on that asset, the failure
    is downgraded to the logged diagnostics and the uncompiled concatenation
    unless the caller passed [fail_silently=False]; only then does the
    [JavascriptError] propagate. *)
Theorem get_urls_fail_silently_by_default
    (env : Env) (get_url : CacheAsset -> option bool -> M string) (settings_DEBUG : bool)
    (first : Asset) (others : list Asset) (compile force_save fail_silently : option bool)
    (name : string) (world : World) (returncode : Z) (stdoutdata stderrdata : string) :
  let assets := first :: others in
  let asset := JavascriptAsset.mk assets (default true compile) (default true fail_silently) in
  let contents := JavascriptAsset.get_contents asset in
  default (negb settings_DEBUG) force_save = true ->
  default true compile = true ->
  communicate_outcome env contents = (returncode, stdoutdata, stderrdata) ->
  returncode <> 0 ->
  JavascriptCache.get_urls get_url settings_DEBUG assets compile force_save fail_silently
  = (url <- get_url (Javascript asset) (Some true) ;; ret [url])
  /\ (fail_silently = Some false ->
      JavascriptAsset.save env asset name world
      = (Raise (JavascriptError "Error while compiling javascript."),
         {| files := files world; stored := stored world;
            generators := generators world;
            trace := (trace world ++ [EvCommunicate contents;
                                      EvLoggerError stderrdata])%list |}))
  /\ (fail_silently <> Some false ->
      JavascriptAsset.save env asset name world
      = (Ok tt,
         {| files := files world; stored := <[name := contents]> (stored world);
            generators := generators world;
            trace := (trace world ++ [EvCommunicate contents;
                                      EvLoggerError stderrdata;
                                      EvStorageSave name contents])%list |})).
Proof.
  intros assets asset contents Hforce Hcompile Hout Hrc.
  split; [|split].
  - unfold JavascriptCache.get_urls. rewrite Hforce. reflexivity.
  - intros ->.
    rewrite (javascript_save_after_failure env asset name world _ _ _ Hcompile Hout Hrc).
    reflexivity.
  - intros Hfs.
    rewrite (javascript_save_after_failure env asset name world _ _ _ Hcompile Hout Hrc).
    assert (JavascriptAsset._fail_silently asset = true) as ->.
    { destruct fail_silently as [[|]|]; [reflexivity|congruence|reflexivity]. }
    rewrite <- app_assoc. reflexivity.
Qed.

Lemma get_urls_fail_silently_by_default_witness :
  fst (JavascriptAsset.save broken_compressor
         (JavascriptAsset.mk [script_a; script_b] true true) "cache/ab.js" nowhere)
  = Ok tt.
Proof.
  destruct (get_urls_fail_silently_by_default broken_compressor
              (AssetCache.get_url broken_compressor (fun _ => "cache/ab.js")) false
              script_a [script_b] None None None "cache/ab.js" nowhere
              1 "" "[ERROR] 1:4:syntax error")
    as (_ & _ & H); [reflexivity | reflexivity | reflexivity | lia |].
  cbv zeta in H. cbn [default] in H.
  change (default true None) with true in H.
  rewrite H by discriminate. reflexivity.
Defined.

(** ** A thumbnail that cannot be made *)

Section SaveFails.
Variable env : Env.




Lemma pil_resize_files (image : Image) (size : Size) (world : World) :
  files (snd (PIL.resize env image size world)) = files world.
Proof.
  unfold PIL.resize, bind, emit.
  destruct (width size), (height size); try reflexivity.
  destruct (resize_outcome env image size); reflexivity.
Qed.

Lemma resize_cropped_files (image : Image) (N D S : Size) (world : World) :
  files (snd (_resize_cropped env image N D S world)) = files world.
Proof.
  unfold _resize_cropped. unfold bind at 1, lift at 1.
  destruct (aspect_binary64 N) as [a|]; [|reflexivity].
  unfold bind at 1, lift at 1.
  destruct (aspect_binary64 S) as [ta|]; [|reflexivity].
  destruct (width S) as [tw|]; [|reflexivity].
  destruct (height S) as [th|]; [|reflexivity].
  unfold bind at 1.
  match goal with
  | |- context [match ?pre world with _ => _ end] =>
      assert (files (snd (pre world)) = files world) as Hpre;
      [|destruct (pre world) as [[pre_cropped_size|] world1]; [|exact Hpre]]
  end.
  { destruct (Qlt_le_dec ta a); [reflexivity|].
    unfold bind, lift. destruct (fdiv (double (inject_Z tw)) a); reflexivity. }
  simpl in Hpre. unfold bind at 1.
  pose proof (pil_resize_files image pre_cropped_size world1) as Hres.
  destruct (PIL.resize env image pre_cropped_size world1) as [[resized|] world2];
    simpl in Hres; [|simpl; congruence].
  destruct (width pre_cropped_size), (height pre_cropped_size);
    simpl; congruence.
Qed.

(** The resize callbacks of the table write no file. *)
Lemma do_resize_files (key : string) (m : ResizeMethod) (image : Image) (N D S : Size)
    (world : World) :
  _methods env !! key = Some m ->
  files (snd (do_resize m image N D S world)) = files world.
Proof.
  intros Hm.
  destruct (methods_inv env key m Hm) as [[_ ->] | [[_ ->] | [_ ->]]]; cbn [do_resize].
  - apply pil_resize_files.
  - apply pil_resize_files.
  - apply resize_cropped_files.
Qed.


End SaveFails.



(** C9: a failure of [ThumbnailAsset.save] leaves no partial file, and yet it
    does not propagate as an [IOError] in every case.  The image of [photo]
    cannot be read: the first [save] of its thumbnail raises the [IOError] of
    [Image.open], inside the generator, which is finished by it.  [save]
    calls [next] outside its [try] blocks, so that the second [save] of the
    same thumbnail raises the [StopIteration] of the finished generator, not
    an [IOError].  No file is written by either. *)
Theorem thumbnail_save_again_after_failed_open :
  let first :=
    ThumbnailAsset.save unreadable (small_photo unreadable) "thumbs/photo.jpg" one_opener in
  let again :=
    ThumbnailAsset.save unreadable (small_photo unreadable) "thumbs/photo.jpg" (snd first) in
  fst first = Raise (IOError "cannot identify image file")
  /\ generators (snd first) = [Finished]
  /\ fst again = Raise StopIteration
  /\ (forall msg, fst again <> Raise (IOError msg))
  /\ files (snd again) !! "/media/thumbs/photo.jpg" = None.
Proof.
  cbv zeta. split; [vm_compute; reflexivity|]. split; [vm_compute; reflexivity|].
  assert (fst (ThumbnailAsset.save unreadable (small_photo unreadable) "thumbs/photo.jpg"
                 (snd (ThumbnailAsset.save unreadable (small_photo unreadable)
                         "thumbs/photo.jpg" one_opener)))
          = Raise StopIteration) as Hagain by (vm_compute; reflexivity).
  split; [exact Hagain|]. split; [intros msg; rewrite Hagain; discriminate|].
  vm_compute. reflexivity.
Qed.

(** On a disk that fills up, [save] writes part of the file, removes it and
    raises. *)
Example save_on_full_disk :
  trace (snd (ThumbnailAsset.save full_disk (small_photo full_disk)
                "thumbs/photo.jpg" one_opener))
  = [EvImageOpen "/srv/media/photo.jpg";
     EvDraft (size_of 200 100);
     EvResize (size_of 200 100);
     EvMakedirs "/media/thumbs/photo.jpg";
     EvImageSave "/media/thumbs/photo.jpg";
     EvUnlink "/media/thumbs/photo.jpg"].
Proof. vm_compute. reflexivity. Qed.

(** When nothing fails, the thumbnail is on the disk, whole. *)
Example save_on_sunny_day :
  ThumbnailAsset.save sunny (small_photo sunny) "thumbs/photo.jpg" one_opener
  = (Ok tt,
     {| files := {[ "/media/thumbs/photo.jpg" := Complete "pixels" ]};
        stored := ∅;
        generators := [Yielding (mkImage "/srv/media/photo.jpg" (1000, 500))];
        trace := [EvImageOpen "/srv/media/photo.jpg";
                  EvDraft (size_of 200 100);
                  EvResize (size_of 200 100);
                  EvMakedirs "/media/thumbs/photo.jpg";
                  EvImageSave "/media/thumbs/photo.jpg"] |}).
Proof. vm_compute. reflexivity. Qed.

(** * Further properties of the code *)

(** ** Sizes *)

Lemma py_min_comm (a b : option Z) : py_min a b = py_min b a.
Proof. destruct a, b; simpl; try reflexivity. f_equal. apply Z.min_comm. Qed.

Lemma py_min_id (a : option Z) : py_min a a = a.
Proof. destruct a; simpl; try reflexivity. f_equal. apply Z.min_id. Qed.

Lemma py_min_assoc (a b c : option Z) :
  py_min (py_min a b) c = py_min a (py_min b c).
Proof.
  destruct a, b, c; simpl; try reflexivity. f_equal. symmetry. apply Z.min_assoc.
Qed.

Lemma py_min_none (a b : option Z) : a = None \/ b = None -> py_min a b = None.
Proof. intros [-> | ->]; [reflexivity|]. destruct a; reflexivity. Qed.

(** [Size.intersect] is the minimum on each axis: it does not depend on the
    order of the two sizes, a size intersected with itself is that size, and
    on concrete sizes each axis of the result is one of the two given and
    above neither.  An axis that either size leaves unset is unset in the
    result, the way Python 2 orders [None]. *)
Theorem intersect_is_componentwise_minimum (a b c : Size) :
  SizeM.intersect a b = SizeM.intersect b a
  /\ SizeM.intersect a a = a
  /\ SizeM.intersect (SizeM.intersect a b) c = SizeM.intersect a (SizeM.intersect b c)
  /\ (forall aw ah bw bh : Z,
        a = size_of aw ah -> b = size_of bw bh ->
        exists w h,
          SizeM.intersect a b = size_of w h
          /\ w <= aw /\ w <= bw /\ (w = aw \/ w = bw)
          /\ h <= ah /\ h <= bh /\ (h = ah \/ h = bh))
  /\ (width a = None \/ width b = None -> width (SizeM.intersect a b) = None)
  /\ (height a = None \/ height b = None -> height (SizeM.intersect a b) = None).
Proof.
  unfold SizeM.intersect. cbn [width height].
  split; [rewrite (py_min_comm (width a)), (py_min_comm (height a)); reflexivity|].
  split; [rewrite !py_min_id; destruct a; reflexivity|].
  split; [rewrite !py_min_assoc; reflexivity|].
  split; [|split; apply py_min_none].
  intros aw ah bw bh -> ->.
  exists (Z.min aw bw), (Z.min ah bh). split; [reflexivity|]. lia.
Qed.

(** [_size_proportional] on a reference with an axis of 0. *)
Lemma size_proportional_degenerate (nw nh : Z) (requested : Size) :
  nw = 0 \/ nh = 0 ->
  (width requested = None -> height requested = None ->
   _size_proportional (size_of nw nh) requested = Ok (size_of nw nh))
  /\ (is_Some (width requested) \/ is_Some (height requested) ->
      _size_proportional (size_of nw nh) requested = Raise ZeroDivisionError).
Proof.
  intros Hzero. split.
  - intros Hw Hh. unfold _size_proportional. rewrite Hw, Hh.
    unfold _size. rewrite Hw, Hh. reflexivity.
  - intros Hsome.
    assert (forall w h : Z,
              SizeM.constrain (mkSize (Some w) (Some h)) (size_of nw nh)
              = Raise ZeroDivisionError) as Hraise.
    { intros w h. unfold SizeM.constrain, SizeM.aspect, size_of, Size_new, fdiv.
      cbn [width height fmap option_fmap option_map int float rbind].
      destruct (Qeq_bool (inject_Z nh) 0) eqn:Eh; [reflexivity|].
      cbn [rbind].
      destruct Hzero as [-> | ->]; [|discriminate Eh].
      assert (Qeq_bool (inject_Z 0 / inject_Z nh) 0 = true) as ->; [|reflexivity].
      apply Qeq_bool_iff. unfold Qdiv. apply Qmult_0_l. }
    unfold _size_proportional.
    destruct requested as [[w|] [h|]]; cbn [width height _replace_null];
      try apply Hraise.
    destruct Hsome as [[? [=]] | [? [=]]].
Qed.

(** An image without width or without height has no aspect ratio: the
    proportional size of such a reference is the reference itself when
    nothing is requested, and a [ZeroDivisionError] as soon as one axis is
    requested. *)
Theorem proportional_of_degenerate_reference (nw nh : Z) (requested : Size) :
  nw = 0 \/ nh = 0 ->
  (width requested = None -> height requested = None ->
   _size_proportional (size_of nw nh) requested = Ok (size_of nw nh))
  /\ (is_Some (width requested) \/ is_Some (height requested) ->
      _size_proportional (size_of nw nh) requested = Raise ZeroDivisionError).
Proof. apply size_proportional_degenerate. Qed.

Lemma proportional_of_degenerate_reference_witness :
  _size_proportional (size_of 0 500) (mkSize (Some 200) None) = Raise ZeroDivisionError.
Proof.
  destruct (proportional_of_degenerate_reference 0 500 (mkSize (Some 200) None))
    as [_ H]; [left; reflexivity|].
  apply H. left. eexists. reflexivity.
Defined.



(** ** Truncation *)


(** On a float that is not negative, [int] is the floor. *)
Lemma py_int_floor (q : Q) (z : Z) :
  (0 <= q)%Q ->
  (inject_Z (py_int q) <= q)%Q /\ ((inject_Z z <= q)%Q -> z <= py_int q).
Proof.
  intros Hq. unfold py_int.
  destruct (Qle_bool 0 q) eqn:E.
  - split; [apply Qfloor_le|].
    intros Hz. rewrite <- (Qfloor_Z z). apply Qfloor_resp_le, Hz.
  - apply Qle_bool_iff in Hq. congruence.
Qed.



(** ** The crop *)

(** Image 250 x 480, cropped to 125 x 240: the aspect ratio of the image is
    not a binary64 number, the height of the resized image is computed as
    239.99999999999997 and truncated to 239, and the box that is cropped
    starts one pixel above the resized image. *)
Lemma resize_cropped_short_by_a_pixel :
  _resize_cropped sunny (mkImage "/srv/media/photo.jpg" (250, 480))
    (size_of 250 480) (size_of 125 240) (size_of 125 240) nowhere
  = (Ok (mkImage "/srv/media/photo.jpg" (125, 240)),
     mkWorld ∅ ∅ [] [EvResize (size_of 125 239); EvCrop (0, -1, 125, 239)]).
Proof. vm_compute. reflexivity. Qed.

(** [_resize_cropped], on sizes below [2 ^ 50], resizes the image to the
    size to make on one axis exactly, where the offset of the crop is 0, and
    to that size less one pixel at least on the other axis; it cuts the size
    to make out of the middle: the box it crops ends within the resized
    image, starts at most one pixel before it, and the margins on either
    side of it differ by a pixel at most.  The result has the size to
    make. *)
Theorem resize_cropped_cuts_the_middle
    (env : Env) (image : Image) (D : Size) (nw nh tw th : Z) (world : World) :
  0 < nw <= 2 ^ 50 -> 0 < nh <= 2 ^ 50 -> 0 < tw <= 2 ^ 50 -> 0 < th <= 2 ^ 50 ->
  (forall size, resize_outcome env image size = None) ->
  exists pw ph x y out world',
    _resize_cropped env image (size_of nw nh) D (size_of tw th) world = (Ok out, world')
    /\ trace world'
       = (trace world ++ [EvResize (size_of pw ph); EvCrop (x, y, x + tw, y + th)])%list
    /\ (pw = tw /\ x = 0 \/ ph = th /\ y = 0)
    /\ -1 <= x /\ x + tw <= pw /\ -1 <= y /\ y + th <= ph
    /\ 0 <= (pw - tw) - 2 * x <= 1 /\ 0 <= (ph - th) - 2 * y <= 1
    /\ im_size out = (tw, th).
Proof.
  intros [Hnw _] [Hnh _] [Htw Htwmax] [Hth Hthmax] Hpil.
  destruct (aspect_binary64_positive nw nh Hnw Hnh) as (Ha & _ & Hapos).
  destruct (aspect_binary64_positive tw th Htw Hth) as (Hta & Htapos & _).
  assert (0 < inject_Z th)%Q as Hth' by (apply inject_Z_pos, Hth).
  assert (0 < inject_Z tw)%Q as Htw' by (apply inject_Z_pos, Htw).
  assert (inject_Z tw <= inject_Z (2 ^ 50))%Q as Htwmax'
    by (rewrite <- Zle_Qle; exact Htwmax).
  assert (inject_Z th <= inject_Z (2 ^ 50))%Q as Hthmax'
    by (rewrite <- Zle_Qle; exact Hthmax).
  change (inject_Z (2 ^ 50)) with (1125899906842624 # 1)%Q in Htwmax', Hthmax'.
  assert (double (inject_Z tw) == inject_Z tw)%Q as Hdtw
    by (apply double_of_integer; split; [exact Htw|]; change (2 ^ 53) with (8 * 2 ^ 50); lia).
  assert (double (inject_Z th) == inject_Z th)%Q as Hdth
    by (apply double_of_integer; split; [exact Hth|]; change (2 ^ 53) with (8 * 2 ^ 50); lia).
  set (a := double (double (inject_Z nw) / double (inject_Z nh))) in *.
  set (ta := (double (inject_Z tw) / double (inject_Z th))%Q) in *.
  assert (ta * inject_Z th == inject_Z tw)%Q as Hta'.
  { unfold ta. rewrite <- Hdth at 2. rewrite <- Hdtw at 2. field. lra. }
  pose proof (double_lower _ Htapos) as Hdta.
  pose proof (double_upper _ Htapos) as Hdta_up.
  change (inject_Z (2 ^ 53 - 1)) with (9007199254740991 # 1)%Q in *.
  change (inject_Z (2 ^ 53 + 1)) with (9007199254740993 # 1)%Q in *.
  change (inject_Z (2 ^ 53)) with (9007199254740992 # 1)%Q in *.
  set (c := (9007199254740991 # 9007199254740992)%Q).
  assert (0 <= c <= 1)%Q as Hc by (split; discriminate).
  unfold _resize_cropped. rewrite Ha, Hta.
  unfold bind at 1, lift at 1. unfold bind at 1, lift at 1.
  unfold size_of at 1 2, Size_new at 1 2.
  cbn [width height fmap option_fmap option_map int].
  destruct (Qlt_le_dec (double ta) a) as [Hwide|Htall].
  - unfold bind at 1, ret at 1.
    unfold bind at 1, PIL.resize, bind at 1, emit at 1.
    cbn [width height Size_new fmap option_fmap option_map int]. rewrite Hpil.
    unfold ret at 1. unfold PIL.crop, bind, emit, ret.
    cbn [files stored generators trace].
    set (product := (double (inject_Z th) * a)%Q) in *.
    assert (0 < product)%Q as Hppos by (unfold product; nra).
    pose proof (double_positive _ Hppos) as Hdppos.
    pose proof (double_lower _ Hppos) as Hdp.
    change (inject_Z (2 ^ 53 - 1)) with (9007199254740991 # 1)%Q in Hdp.
    change (inject_Z (2 ^ 53)) with (9007199254740992 # 1)%Q in Hdp.
    assert (c * ta <= a)%Q as H1 by (unfold c; lra).
    assert (c * product <= double product)%Q as H3 by (unfold c; lra).
    assert (0 <= c * ta)%Q as H1' by nra.
    assert (c * inject_Z tw <= product)%Q as H4 by (unfold product; nra).
    assert (0 <= c * inject_Z tw)%Q as H4' by nra.
    assert (c * (c * (c * inject_Z tw)) <= double product)%Q as H5 by nra.
    assert (inject_Z tw - 1 <= double product)%Q as Hnear.
    { apply (three_roundings c); [exact Hc | lra | unfold c; lra | exact H5]. }
    assert (0 <= double product)%Q as Hnonneg by lra.
    destruct (py_int_floor (double product) (tw - 1) Hnonneg) as [_ Hge].
    assert (tw - 1 <= py_int (double product)) as Hcover.
    { apply Hge. unfold Z.sub. rewrite inject_Z_plus.
      change (inject_Z (- (1))) with (- (1))%Q. lra. }
    set (pw := py_int (double product)) in *.
    exists pw, th, ((pw - tw) / 2), ((th - th) / 2). eexists. eexists.
    split; [reflexivity|]. split; [rewrite <- app_assoc; reflexivity|].
    replace (th - th) with 0 by lia. change (0 / 2) with 0.
    split; [right; split; reflexivity|].
    cbn [im_size].
    pose proof (Z.div_mod (pw - tw) 2 ltac:(lia)) as Hdm.
    pose proof (Z.mod_pos_bound (pw - tw) 2 ltac:(lia)) as Hmod.
    repeat split; try lia. f_equal; lia.
  - unfold bind at 1. unfold bind at 1, lift at 1, fdiv.
    destruct (Qeq_bool a 0) eqn:E.
    { apply Qeq_bool_iff in E. rewrite E in Hapos. discriminate. }
    unfold ret at 1.
    unfold bind at 1, PIL.resize, bind at 1, emit at 1.
    cbn [width height Size_new fmap option_fmap option_map int]. rewrite Hpil.
    unfold ret at 1. unfold PIL.crop, bind, emit, ret.
    cbn [files stored generators trace].
    set (quotient := (double (inject_Z tw) / a)%Q) in *.
    assert (quotient * a == inject_Z tw)%Q as Hq
      by (unfold quotient; rewrite <- Hdtw at 2; field; lra).
    assert (0 < quotient)%Q as Hqpos.
    { unfold quotient. apply Qlt_shift_div_l; [exact Hapos|]. lra. }
    pose proof (double_positive _ Hqpos) as Hdqpos.
    pose proof (double_lower _ Hqpos) as Hdq.
    change (inject_Z (2 ^ 53 - 1)) with (9007199254740991 # 1)%Q in Hdq.
    change (inject_Z (2 ^ 53)) with (9007199254740992 # 1)%Q in Hdq.
    assert (c * a <= ta)%Q as H1 by (unfold c; lra).
    assert (c * quotient <= double quotient)%Q as H3 by (unfold c; lra).
    assert (c * a * inject_Z th <= inject_Z tw)%Q as H1' by nra.
    assert (c * inject_Z th * a <= quotient * a)%Q as H4 by nra.
    assert (c * inject_Z th <= quotient)%Q as H4' by nra.
    assert (0 <= c * inject_Z th)%Q as H4'' by nra.
    assert (c * (c * (c * inject_Z th)) <= double quotient)%Q as H5 by nra.
    assert (inject_Z th - 1 <= double quotient)%Q as Hnear.
    { apply (three_roundings c); [exact Hc | lra | unfold c; lra | exact H5]. }
    assert (0 <= double quotient)%Q as Hnonneg by lra.
    destruct (py_int_floor (double quotient) (th - 1) Hnonneg) as [_ Hge].
    assert (th - 1 <= py_int (double quotient)) as Hcover.
    { apply Hge. unfold Z.sub. rewrite inject_Z_plus.
      change (inject_Z (- (1))) with (- (1))%Q. lra. }
    set (ph := py_int (double quotient)) in *.
    exists tw, ph, ((tw - tw) / 2), ((ph - th) / 2). eexists. eexists.
    split; [reflexivity|]. split; [rewrite <- app_assoc; reflexivity|].
    replace (tw - tw) with 0 by lia. change (0 / 2) with 0.
    split; [left; split; reflexivity|].
    cbn [im_size].
    pose proof (Z.div_mod (ph - th) 2 ltac:(lia)) as Hdm.
    pose proof (Z.mod_pos_bound (ph - th) 2 ltac:(lia)) as Hmod.
    repeat split; try lia. f_equal; lia.
Qed.

Lemma resize_cropped_cuts_the_middle_witness :
  exists pw ph x y out world',
    _resize_cropped sunny (mkImage "/srv/media/photo.jpg" (250, 480))
      (size_of 250 480) (size_of 125 240) (size_of 125 240) nowhere = (Ok out, world')
    /\ trace world' = [EvResize (size_of pw ph); EvCrop (x, y, x + 125, y + 240)]
    /\ -1 <= x /\ x + 125 <= pw /\ -1 <= y /\ y + 240 <= ph.
Proof.
  destruct (resize_cropped_cuts_the_middle sunny
              (mkImage "/srv/media/photo.jpg" (250, 480)) (size_of 125 240)
              250 480 125 240 nowhere)
    as (pw & ph & x & y & out & world' & Hrun & Htrace & _ & Hx & Hxw & Hy & Hyh & _);
    [lia | lia | lia | lia | reflexivity |].
  exists pw, ph, x, y, out, world'.
  split; [exact Hrun|]. split; [exact Htrace|].
  split; [exact Hx|]. split; [exact Hxw|]. split; [exact Hy|exact Hyh].
Defined.

(** ** The runs of [get_thumbnail] *)

Section GetThumbnailRuns.
Variable env : Env.
Variable Source : Type.
Variable AdaptiveAsset : Source -> Asset.

(** The end of [get_thumbnail], from the computation of the sizes on. *)
Lemma get_thumbnail_end (m : ResizeMethod) (asset : Asset) (opener : Opener)
    (N R : Size) (self : ThumbnailCache.t) (world : World) :
  (display_size <- lift (get_display_size m N R) ;;
   data_size <- lift (get_data_size m display_size (SizeM.intersect display_size N)) ;;
   (let 'mkSize display_width display_height := display_size in
    ret (Thumbnail.__init__
           (if decide (data_size = N) then Plain asset
            else Thumb (ThumbnailAsset.mk asset opener N display_size data_size m))
           display_width display_height, self))) world
  = (match thumbnail_sizes m N R with
     | Ok sizes => Ok (thumbnail_of asset opener m N sizes, self)
     | Raise e => Raise e
     end, world).
Proof.
  unfold thumbnail_sizes, thumbnail_of, bind, lift.
  destruct (get_display_size m N R) as [D|e]; [|reflexivity].
  cbn [rbind].
  destruct (get_data_size m D (SizeM.intersect D N)) as [S|e]; [|reflexivity].
  cbn [rbind]. destruct D as [dw dh]. reflexivity.
Qed.

(** A hit of the size cache: the image is not opened. *)
Lemma get_thumbnail_hit (self : ThumbnailCache.t) (asset : Source)
    (w h : option number) (method : option string) (m : ResizeMethod)
    (N : Size) (world : World) :
  _methods env !! default PROPORTIONAL method = Some m ->
  ThumbnailCache._size_cache self !! asset_id (AdaptiveAsset asset) = Some N ->
  ThumbnailCache.get_thumbnail env Source AdaptiveAsset self asset w h method world
  = (match thumbnail_sizes m N (Size_new w h) with
     | Ok sizes =>
         Ok (thumbnail_of (AdaptiveAsset asset)
               {| op_ref := length (generators world); op_asset := AdaptiveAsset asset |}
               m N sizes, self)
     | Raise e => Raise e
     end,
     {| files := files world; stored := stored world;
        generators := (generators world ++ [Fresh])%list; trace := trace world |}).
Proof.
  intros Hm Hc. unfold ThumbnailCache.get_thumbnail.
  unfold bind at 1. rewrite Hm. unfold ret at 1.
  unfold bind at 1, image_opener, bind at 1, get_world at 1.
  unfold bind at 1, set_generators at 1, ret at 1.
  unfold bind at 1. rewrite Hc. unfold ret at 1.
  apply get_thumbnail_end.
Qed.

(** A miss of the size cache on an image that opens: the size of the image
    goes into the cache, and the opener is left suspended with the image. *)
Lemma get_thumbnail_miss (self : ThumbnailCache.t) (asset : Source)
    (w h : option number) (method : option string) (m : ResizeMethod)
    (im : Image) (world : World) :
  _methods env !! default PROPORTIONAL method = Some m ->
  ThumbnailCache._size_cache self !! asset_id (AdaptiveAsset asset) = None ->
  Image_open_outcome env (asset_path (AdaptiveAsset asset)) = Opened im ->
  let N := size_of (fst (im_size im)) (snd (im_size im)) in
  ThumbnailCache.get_thumbnail env Source AdaptiveAsset self asset w h method world
  = (match thumbnail_sizes m N (Size_new w h) with
     | Ok sizes =>
         Ok (thumbnail_of (AdaptiveAsset asset)
               {| op_ref := length (generators world); op_asset := AdaptiveAsset asset |}
               m N sizes,
             {| ThumbnailCache._size_cache :=
                  <[asset_id (AdaptiveAsset asset) := N]> (ThumbnailCache._size_cache self) |})
     | Raise e => Raise e
     end,
     {| files := files world; stored := stored world;
        generators := <[length (generators world) := Yielding im]>
                        (generators world ++ [Fresh])%list;
        trace := (trace world ++ [EvImageOpen (asset_path (AdaptiveAsset asset))])%list |}).
Proof.
  intros Hm Hc Ho N. unfold ThumbnailCache.get_thumbnail.
  unfold bind at 1. rewrite Hm. unfold ret at 1.
  unfold bind at 1, image_opener, bind at 1, get_world at 1.
  unfold bind at 1, set_generators at 1, ret at 1.
  unfold bind at 1. rewrite Hc.
  unfold bind at 1, next, bind at 1, get_world at 1.
  cbn [generators op_ref op_asset].
  rewrite lookup_app_r by lia. rewrite Nat.sub_diag. cbn [lookup list_lookup].
  unfold try_except, bind at 1, PIL.open, bind at 1, emit at 1.
  rewrite Ho. unfold ret at 1.
  unfold bind at 1, set_generators at 1. unfold ret at 1. unfold ret at 1.
  cbn [files stored generators trace].
  apply get_thumbnail_end.
Qed.

(** A miss of the size cache on an image that does not open. *)
Lemma get_thumbnail_cannot_open (self : ThumbnailCache.t) (asset : Source)
    (w h : option number) (method : option string) (m : ResizeMethod)
    (msg : string) (world : World) :
  _methods env !! default PROPORTIONAL method = Some m ->
  ThumbnailCache._size_cache self !! asset_id (AdaptiveAsset asset) = None ->
  Image_open_outcome env (asset_path (AdaptiveAsset asset)) = CannotOpen msg ->
  ThumbnailCache.get_thumbnail env Source AdaptiveAsset self asset w h method world
  = (Raise (IOError msg),
     {| files := files world; stored := stored world;
        generators := <[length (generators world) := Finished]>
                        (generators world ++ [Fresh])%list;
        trace := (trace world ++ [EvImageOpen (asset_path (AdaptiveAsset asset))])%list |}).
Proof.
  intros Hm Hc Ho. unfold ThumbnailCache.get_thumbnail.
  unfold bind at 1. rewrite Hm. unfold ret at 1.
  unfold bind at 1, image_opener, bind at 1, get_world at 1.
  unfold bind at 1, set_generators at 1, ret at 1.
  unfold bind at 1. rewrite Hc.
  unfold bind at 1, next, bind at 1, get_world at 1.
  cbn [generators op_ref op_asset].
  rewrite lookup_app_r by lia. rewrite Nat.sub_diag. cbn [lookup list_lookup].
  unfold try_except, bind at 1, PIL.open, bind at 1, emit at 1.
  rewrite Ho. unfold raise at 1.
  unfold bind at 1, set_generators at 1. unfold raise.
  reflexivity.
Qed.

End GetThumbnailRuns.

Section GetThumbnailMore.
Variable env : Env.
Variable Source : Type.
Variable AdaptiveAsset : Source -> Asset.

(** What [get_thumbnail] returns is decided by the two sizes alone, once the
    method is known and the size of the image is resolved. *)
Lemma get_thumbnail_decided (self : ThumbnailCache.t) (asset : Source)
    (w h : option number) (method : option string) (m : ResizeMethod)
    (N : Size) (world : World) :
  _methods env !! default PROPORTIONAL method = Some m ->
  natural_size env self (AdaptiveAsset asset) = Some N ->
  exists opener self',
    op_asset opener = AdaptiveAsset asset
    /\ fst (ThumbnailCache.get_thumbnail env Source AdaptiveAsset self asset w h method world)
       = match thumbnail_sizes m N (Size_new w h) with
         | Ok sizes => Ok (thumbnail_of (AdaptiveAsset asset) opener m N sizes, self')
         | Raise e => Raise e
         end.
Proof.
  intros Hm HN. unfold natural_size in HN.
  destruct (ThumbnailCache._size_cache self !! asset_id (AdaptiveAsset asset))
    as [cached|] eqn:Hc.
  - injection HN as ->.
    rewrite (get_thumbnail_hit env Source AdaptiveAsset self asset w h method m N world Hm Hc).
    eexists _, self. split; [|reflexivity]. reflexivity.
  - destruct (Image_open_outcome env (asset_path (AdaptiveAsset asset)))
      as [im|msg] eqn:Ho; [|discriminate].
    injection HN as <-.
    rewrite (get_thumbnail_miss env Source AdaptiveAsset self asset w h method m im world
               Hm Hc Ho).
    eexists _, _. split; [|reflexivity]. reflexivity.
Qed.

End GetThumbnailMore.

(** The sizes of the two methods that sample with [_size], on an image of
    positive dimensions: they are always there. *)
Lemma sampling_sizes (env : Env) (key : string) (m : ResizeMethod) (nw nh : Z)
    (requested : Size) :
  0 < nw -> 0 < nh ->
  key = PROPORTIONAL \/ key = RESIZE ->
  _methods env !! key = Some m ->
  exists dw dh,
    thumbnail_sizes m (size_of nw nh) requested
    = Ok (mkSize (Some dw) (Some dh), mkSize (Some (Z.min dw nw)) (Some (Z.min dh nh))).
Proof.
  intros Hw Hh [-> | ->] Hm.
  - rewrite methods_proportional in Hm. injection Hm as <-.
    destruct (size_proportional_fits nw nh requested Hw Hh) as (dw & dh & HD & _).
    exists dw, dh. unfold thumbnail_sizes. cbn [get_display_size]. rewrite HD. reflexivity.
  - rewrite methods_resize in Hm. injection Hm as <-.
    exists (default nw (width requested)), (default nh (height requested)).
    destruct requested as [[w|] [h|]]; reflexivity.
Qed.

(** With the proportional and the resize method, [get_thumbnail] of an image
    of positive dimensions never raises, whatever is requested: it returns a
    thumbnail that goes by the name of the source, has a width and a height,
    and whose asset is the source or a [ThumbnailAsset] of the source with a
    data size within the image. *)
Theorem get_thumbnail_always_returns
    (env : Env) (Source : Type) (AdaptiveAsset : Source -> Asset)
    (self : ThumbnailCache.t) (asset : Source) (w h : option number)
    (method : option string) (nw nh : Z) (world : World) :
  0 < nw -> 0 < nh ->
  default PROPORTIONAL method = PROPORTIONAL \/ default PROPORTIONAL method = RESIZE ->
  natural_size env self (AdaptiveAsset asset) = Some (size_of nw nh) ->
  exists thumbnail self' dw dh,
    fst (ThumbnailCache.get_thumbnail env Source AdaptiveAsset self asset w h method world)
    = Ok (thumbnail, self')
    /\ Thumbnail.name thumbnail = asset_name (AdaptiveAsset asset)
    /\ Thumbnail.width thumbnail = Some dw
    /\ Thumbnail.height thumbnail = Some dh
    /\ (Thumbnail._asset thumbnail = Plain (AdaptiveAsset asset)
        \/ exists t,
             Thumbnail._asset thumbnail = Thumb t
             /\ ThumbnailAsset._asset t = AdaptiveAsset asset
             /\ ThumbnailAsset._original_size t = size_of nw nh
             /\ ThumbnailAsset._display_size t = size_of dw dh
             /\ ThumbnailAsset._data_size t = size_of (Z.min dw nw) (Z.min dh nh)
             /\ ThumbnailAsset._data_size t <> size_of nw nh).
Proof.
  intros Hw Hh Hkey HN.
  assert (exists m, _methods env !! default PROPORTIONAL method = Some m) as [m' Hm].
  { destruct Hkey as [-> | ->]; eexists; reflexivity. }
  destruct (sampling_sizes env _ m' nw nh (Size_new w h) Hw Hh Hkey Hm)
    as (dw & dh & Hs).
  destruct (get_thumbnail_decided env Source AdaptiveAsset self asset w h method m'
              (size_of nw nh) world Hm HN) as (opener & self' & Hop & Hr).
  rewrite Hs in Hr. unfold thumbnail_of in Hr.
  eexists _, self', dw, dh. split; [exact Hr|].
  destruct (decide (mkSize (Some (Z.min dw nw)) (Some (Z.min dh nh)) = size_of nw nh))
    as [Heq|Hne]; cbn.
  - repeat split; auto.
  - repeat split; auto. right. eexists. repeat split; auto.
Qed.

Lemma get_thumbnail_always_returns_witness :
  exists thumbnail self',
    fst (ThumbnailCache.get_thumbnail sunny Asset (fun a => a) ThumbnailCache.__init__
           photo (Some (Int (-5))) None (Some RESIZE) nowhere)
    = Ok (thumbnail, self')
    /\ Thumbnail.name thumbnail = "photo.jpg".
Proof.
  destruct (get_thumbnail_always_returns sunny Asset (fun a => a) ThumbnailCache.__init__
              photo (Some (Int (-5))) None (Some RESIZE) 1000 500 nowhere)
    as (thumbnail & self' & dw & dh & H & Hname & _);
    [lia | lia | right; reflexivity | reflexivity |].
  exists thumbnail, self'. split; [exact H | exact Hname].
Defined.

(** A crop to a width or a height of 0 has no aspect ratio to fit: on an
    image of positive dimensions [get_thumbnail] raises a
    [ZeroDivisionError] for it, and returns no thumbnail. *)
Theorem crop_to_nothing_raises
    (env : Env) (Source : Type) (AdaptiveAsset : Source -> Asset)
    (self : ThumbnailCache.t) (asset : Source) (w h : option number)
    (nw nh : Z) (world : World) :
  0 < nw -> 0 < nh ->
  natural_size env self (AdaptiveAsset asset) = Some (size_of nw nh) ->
  width (Size_new w h) = Some 0 \/ height (Size_new w h) = Some 0 ->
  fst (ThumbnailCache.get_thumbnail env Source AdaptiveAsset self asset w h (Some CROP) world)
  = Raise ZeroDivisionError.
Proof.
  intros Hw Hh HN Hzero.
  destruct (get_thumbnail_decided env Source AdaptiveAsset self asset w h (Some CROP) _
              (size_of nw nh) world (methods_crop env) HN) as (opener & self' & _ & Hr).
  rewrite Hr. clear Hr.
  set (R := Size_new w h) in *.
  assert (exists rw rh, _size (size_of nw nh) R = Ok (size_of rw rh) /\ (rw = 0 \/ rh = 0))
    as (rw & rh & HD & Hz).
  { exists (default nw (width R)), (default nh (height R)). split.
    - destruct R as [[?|] [?|]]; reflexivity.
    - destruct Hzero as [-> | ->]; [left|right]; reflexivity. }
  unfold thumbnail_sizes. cbn [get_display_size get_data_size]. rewrite HD. cbn [rbind].
  destruct (size_proportional_degenerate rw rh
              (SizeM.intersect (size_of rw rh) (size_of nw nh)) Hz) as [_ Hraise].
  rewrite Hraise; [reflexivity|]. left. eexists. reflexivity.
Qed.

Lemma crop_to_nothing_raises_witness :
  fst (ThumbnailCache.get_thumbnail sunny Asset (fun a => a) ThumbnailCache.__init__
         photo (Some (Int 0)) (Some (Int 100)) (Some CROP) nowhere)
  = Raise ZeroDivisionError.
Proof.
  apply (crop_to_nothing_raises sunny Asset (fun a => a) ThumbnailCache.__init__
           photo (Some (Int 0)) (Some (Int 100)) 1000 500 nowhere);
    [lia | lia | reflexivity | left; reflexivity].
Defined.

(** ** The size cache *)

(** The size of an image is resolved once.  After a call of [get_thumbnail]
    that returns, the size cache holds the natural size of the asset and
    every other entry as before; any later call for the same asset, with any
    size and any known method, calls nothing of PIL and touches no file. *)
Theorem size_cache_memoizes
    (env : Env) (Source : Type) (AdaptiveAsset : Source -> Asset)
    (self self1 : ThumbnailCache.t) (asset : Source) (w h : option number)
    (method : option string) (m : ResizeMethod) (N : Size)
    (thumbnail : Thumbnail.t) (world world1 : World) :
  _methods env !! default PROPORTIONAL method = Some m ->
  natural_size env self (AdaptiveAsset asset) = Some N ->
  ThumbnailCache.get_thumbnail env Source AdaptiveAsset self asset w h method world
  = (Ok (thumbnail, self1), world1) ->
  ThumbnailCache._size_cache self1 !! asset_id (AdaptiveAsset asset) = Some N
  /\ (forall other : string,
        other <> asset_id (AdaptiveAsset asset) ->
        ThumbnailCache._size_cache self1 !! other = ThumbnailCache._size_cache self !! other)
  /\ (forall (w' h' : option number) (method' : option string) (m' : ResizeMethod),
        _methods env !! default PROPORTIONAL method' = Some m' ->
        let again :=
          ThumbnailCache.get_thumbnail env Source AdaptiveAsset self1 asset w' h' method'
            world1 in
        trace (snd again) = trace world1
        /\ files (snd again) = files world1
        /\ forall thumbnail' self2, fst again = Ok (thumbnail', self2) -> self2 = self1).
Proof.
  intros Hm HN Hrun.
  assert (ThumbnailCache._size_cache self1 !! asset_id (AdaptiveAsset asset) = Some N
          /\ forall other : string,
               other <> asset_id (AdaptiveAsset asset) ->
               ThumbnailCache._size_cache self1 !! other
               = ThumbnailCache._size_cache self !! other) as [Hcached Hothers].
  { unfold natural_size in HN.
    destruct (ThumbnailCache._size_cache self !! asset_id (AdaptiveAsset asset))
      as [cached|] eqn:Hc.
    - injection HN as ->.
      rewrite (get_thumbnail_hit env Source AdaptiveAsset self asset w h method m N world
                 Hm Hc) in Hrun.
      destruct (thumbnail_sizes m N (Size_new w h)); [|discriminate].
      injection Hrun as _ <- _. auto.
    - destruct (Image_open_outcome env (asset_path (AdaptiveAsset asset)))
        as [im|msg] eqn:Ho; [|discriminate].
      injection HN as <-.
      rewrite (get_thumbnail_miss env Source AdaptiveAsset self asset w h method m im world
                 Hm Hc Ho) in Hrun.
      destruct (thumbnail_sizes m _ (Size_new w h)); [|discriminate].
      injection Hrun as _ <- _. cbn [ThumbnailCache._size_cache]. split.
      + apply lookup_insert_eq.
      + intros other Hne. apply lookup_insert_ne. congruence. }
  split; [exact Hcached|]. split; [exact Hothers|].
  intros w' h' method' m' Hm'. cbv zeta.
  rewrite (get_thumbnail_hit env Source AdaptiveAsset self1 asset w' h' method' m' N world1
             Hm' Hcached).
  cbn [fst snd trace files]. repeat split.
  intros thumbnail' self2 H.
  destruct (thumbnail_sizes m' N (Size_new w' h')); [|discriminate].
  injection H as _ <-. reflexivity.
Qed.

Lemma size_cache_memoizes_witness :
  let first :=
    ThumbnailCache.get_thumbnail sunny Asset (fun a => a) ThumbnailCache.__init__
      photo (Some (Int 200)) None None nowhere in
  exists thumbnail self1,
    fst first = Ok (thumbnail, self1)
    /\ trace (snd first) = [EvImageOpen "/srv/media/photo.jpg"]
    /\ trace (snd (ThumbnailCache.get_thumbnail sunny Asset (fun a => a) self1
                     photo (Some (Int 300)) (Some (Int 300)) (Some CROP) (snd first)))
       = [EvImageOpen "/srv/media/photo.jpg"].
Proof.
  cbv zeta.
  destruct (ThumbnailCache.get_thumbnail sunny Asset (fun a => a) ThumbnailCache.__init__
              photo (Some (Int 200)) None None nowhere)
    as [[[thumbnail self1]|e] world1] eqn:Hrun; [|vm_compute in Hrun; discriminate].
  exists thumbnail, self1.
  assert (trace world1 = [EvImageOpen "/srv/media/photo.jpg"]) as Htrace.
  { vm_compute in Hrun. injection Hrun as _ _ <-. reflexivity. }
  split; [reflexivity|]. split; [exact Htrace|].
  destruct (size_cache_memoizes sunny Asset (fun a => a) ThumbnailCache.__init__ self1
              photo (Some (Int 200)) None None
              (mkResizeMethod _size_proportional _size (_resize sunny) "resize")
              (size_of 1000 500) thumbnail nowhere world1)
    as (_ & _ & H); [reflexivity | reflexivity | exact Hrun |].
  destruct (H (Some (Int 300)) (Some (Int 300)) (Some CROP)
              (mkResizeMethod _size _size_proportional (_resize_cropped sunny) "crop")
              (methods_crop sunny)) as [Ht _].
  cbn [snd]. rewrite Ht. exact Htrace.
Defined.

(** The image file is looked at on a miss of the size cache only.  On a miss
    an image that does not open makes [get_thumbnail] raise the [IOError] of
    [Image.open], after that one call and with no file touched; on a hit the
    image is not opened at all, readable or not. *)
Theorem get_thumbnail_opens_on_a_miss_only
    (env : Env) (Source : Type) (AdaptiveAsset : Source -> Asset)
    (self : ThumbnailCache.t) (asset : Source) (w h : option number)
    (method : option string) (m : ResizeMethod) (world : World) :
  _methods env !! default PROPORTIONAL method = Some m ->
  let run :=
    ThumbnailCache.get_thumbnail env Source AdaptiveAsset self asset w h method world in
  (forall msg,
     ThumbnailCache._size_cache self !! asset_id (AdaptiveAsset asset) = None ->
     Image_open_outcome env (asset_path (AdaptiveAsset asset)) = CannotOpen msg ->
     fst run = Raise (IOError msg)
     /\ trace (snd run)
        = (trace world ++ [EvImageOpen (asset_path (AdaptiveAsset asset))])%list
     /\ files (snd run) = files world)
  /\ (is_Some (ThumbnailCache._size_cache self !! asset_id (AdaptiveAsset asset)) ->
      trace (snd run) = trace world /\ files (snd run) = files world).
Proof.
  intros Hm run. subst run. split.
  - intros msg Hc Ho.
    rewrite (get_thumbnail_cannot_open env Source AdaptiveAsset self asset w h method m msg
               world Hm Hc Ho). auto.
  - intros [N Hc].
    rewrite (get_thumbnail_hit env Source AdaptiveAsset self asset w h method m N world
               Hm Hc). auto.
Qed.

Lemma get_thumbnail_opens_on_a_miss_only_witness :
  trace (snd (ThumbnailCache.get_thumbnail full_disk Asset (fun a => a)
                (ThumbnailCache.mk {[ "3f2a" := size_of 1000 500 ]})
                photo (Some (Int 200)) None None nowhere))
  = [].
Proof.
  destruct (get_thumbnail_opens_on_a_miss_only full_disk Asset (fun a => a)
              (ThumbnailCache.mk {[ "3f2a" := size_of 1000 500 ]})
              photo (Some (Int 200)) None None
              (mkResizeMethod _size_proportional _size (_resize full_disk) "resize")
              nowhere) as [_ H]; [reflexivity|].
  apply H. eexists. reflexivity.
Defined.

(** ** The opener *)

(** The generator of [image_opener] opens its image once.  After a step that
    yields an image, every further step yields the same image and changes
    nothing; after a step that raises, the generator is finished and every
    further step raises [StopIteration]. *)
Theorem opener_opens_once (env : Env) (opener : Opener) (world world1 : World) :
  (forall im,
     next env opener world = (Ok im, world1) ->
     next env opener world1 = (Ok im, world1))
  /\ (forall ex,
        live opener world ->
        next env opener world = (Raise ex, world1) ->
        next env opener world1 = (Raise StopIteration, world1)).
Proof.
  split.
  - intros im. unfold next at 1. unfold bind at 1, get_world at 1.
    destruct (generators world !! op_ref opener) as [[|yielded|]|] eqn:Hg.
    + unfold try_except, bind at 1, PIL.open, bind at 1, emit at 1.
      destruct (Image_open_outcome env (asset_path (op_asset opener))) as [opened|msg].
      * unfold ret at 1. unfold bind, set_generators, ret.
        intros [= <- <-]. unfold next, bind, get_world. cbn [generators].
        rewrite list_lookup_insert_eq; [reflexivity|].
        apply lookup_lt_Some in Hg. exact Hg.
      * unfold raise at 1. unfold bind, set_generators, raise. intros [=].
    + unfold ret. intros [= <- <-]. unfold next, bind, get_world. rewrite Hg. reflexivity.
    + unfold raise. intros [=].
    + unfold raise. intros [=].
  - intros ex [Hfresh | [yielded Hyield]]; unfold next at 1;
      unfold bind at 1, get_world at 1.
    + rewrite Hfresh.
      unfold try_except, bind at 1, PIL.open, bind at 1, emit at 1.
      destruct (Image_open_outcome env (asset_path (op_asset opener))) as [opened|msg].
      * unfold ret at 1. unfold bind, set_generators, ret. intros [=].
      * unfold raise at 1. unfold bind, set_generators, raise.
        intros [= <- <-]. unfold next, bind, get_world. cbn [generators].
        rewrite list_lookup_insert_eq; [reflexivity|].
        apply lookup_lt_Some in Hfresh. exact Hfresh.
    + rewrite Hyield. unfold ret. intros [=].
Qed.

Lemma opener_opens_once_witness :
  next full_disk {| op_ref := 0; op_asset := photo |} one_opener
  = (Ok (mkImage "/srv/media/photo.jpg" (1000, 500)),
     snd (next full_disk {| op_ref := 0; op_asset := photo |} one_opener))
  /\ next full_disk {| op_ref := 0; op_asset := photo |}
       (snd (next full_disk {| op_ref := 0; op_asset := photo |} one_opener))
     = (Ok (mkImage "/srv/media/photo.jpg" (1000, 500)),
        snd (next full_disk {| op_ref := 0; op_asset := photo |} one_opener)).
Proof.
  assert (next full_disk {| op_ref := 0; op_asset := photo |} one_opener
          = (Ok (mkImage "/srv/media/photo.jpg" (1000, 500)),
             snd (next full_disk {| op_ref := 0; op_asset := photo |} one_opener))) as H
    by (vm_compute; reflexivity).
  split; [exact H|].
  destruct (opener_opens_once full_disk {| op_ref := 0; op_asset := photo |} one_opener
              (snd (next full_disk {| op_ref := 0; op_asset := photo |} one_opener)))
    as [Hagain _].
  apply Hagain. exact H.
Defined.

(** ** Saving a thumbnail *)

Section SaveReturns.
Variable env : Env.

Lemma next_yields (opener : Opener) (world : World) (im : Image) :
  yields env opener world im ->
  exists world1,
    next env opener world = (Ok im, world1) /\ files world1 = files world.
Proof.
  intros [Hyield | [Hfresh Ho]]; unfold next, bind at 1, get_world at 1.
  - rewrite Hyield. exists world. split; reflexivity.
  - rewrite Hfresh. unfold try_except, bind at 1, PIL.open, bind at 1, emit at 1.
    rewrite Ho. unfold ret at 1. unfold bind, set_generators, ret.
    eexists. split; reflexivity.
Qed.

(** When PIL resizes without an error, the resize callbacks of the table
    return an image, for sizes of positive dimensions. *)
Lemma do_resize_returns (key : string) (m : ResizeMethod) (image : Image) (D : Size)
    (nw nh sw sh : Z) (world : World) :
  _methods env !! key = Some m ->
  0 < nw -> 0 < nh -> 0 < sw -> 0 < sh ->
  (forall size, resize_outcome env image size = None) ->
  exists out world',
    do_resize m image (size_of nw nh) D (size_of sw sh) world = (Ok out, world')
    /\ files world' = files world.
Proof.
  intros Hm Hnw Hnh Hsw Hsh Hpil.
  pose proof (do_resize_files env key m image (size_of nw nh) D (size_of sw sh) world Hm)
    as Hfiles.
  destruct (methods_inv env key m Hm) as [[_ ->] | [[_ ->] | [_ ->]]];
    cbn [do_resize] in *.
  - unfold _resize, PIL.resize, bind, emit, ret in *. cbn [width height size_of Size_new
      fmap option_fmap option_map int] in *. rewrite Hpil in *. eauto.
  - unfold _resize, PIL.resize, bind, emit, ret in *. cbn [width height size_of Size_new
      fmap option_fmap option_map int] in *. rewrite Hpil in *. eauto.
  - destruct (resize_cropped_returns env image D nw nh sw sh world) as (out & world' & Hrun);
      try assumption.
    rewrite Hrun in Hfiles. eauto.
Qed.

End SaveReturns.

(** When the image opens, PIL resizes it and writes it without an error,
    [ThumbnailAsset.save] returns and the whole file is at the path that the
    storage gives for the name, every other file being as before.  The
    directory of the path is made on a best effort: whether [os.makedirs]
    raises its [OSError] or not makes no difference. *)
Theorem thumbnail_save_writes_the_file
    (env : Env) (key : string) (self : ThumbnailAsset.t) (name : string) (world : World)
    (im : Image) (nw nh sw sh : Z) (data : string) :
  _methods env !! key = Some (ThumbnailAsset._method self) ->
  yields env (ThumbnailAsset._opener self) world im ->
  ThumbnailAsset._original_size self = size_of nw nh -> 0 < nw -> 0 < nh ->
  ThumbnailAsset._data_size self = size_of sw sh -> 0 < sw -> 0 < sh ->
  (forall size, resize_outcome env im size = None) ->
  (forall resized, save_outcome env resized (storage_path env name) = Written data) ->
  exists world',
    ThumbnailAsset.save env self name world = (Ok tt, world')
    /\ files world' = <[storage_path env name := Complete data]> (files world).
Proof.
  intros Hm Hy HN Hnw Hnh HS Hsw Hsh Hpil Hwrite.
  unfold ThumbnailAsset.save.
  destruct (next_yields env _ world im Hy) as (world1 & Hnext & Hf1).
  unfold bind at 1. rewrite Hnext.
  unfold bind at 1, PIL.draft, emit at 1.
  unfold bind at 1, try_except at 1. rewrite HN, HS.
  match goal with
  | |- context [do_resize ?m ?i ?n ?d ?s ?w] =>
      destruct (do_resize_returns env key m i d nw nh sw sh w Hm Hnw Hnh Hsw Hsh Hpil)
        as (resized & world2 & Hdo & Hf2)
  end.
  rewrite Hdo. cbn [files] in Hf2.
  unfold bind at 1, try_except at 1, os.makedirs, bind at 1, emit at 1.
  destruct (makedirs_outcome env _) as [oserror|];
    unfold raise at 1, ret at 1;
    unfold try_except, PIL.save, bind, emit; rewrite Hwrite; unfold set_files;
    eexists; (split; [reflexivity|]); cbn [files]; congruence.
Qed.

Lemma thumbnail_save_writes_the_file_witness :
  exists world',
    ThumbnailAsset.save sunny (small_photo sunny) "thumbs/photo.jpg" one_opener
    = (Ok tt, world')
    /\ files world' = {[ "/media/thumbs/photo.jpg" := Complete "pixels" ]}.
Proof.
  destruct (thumbnail_save_writes_the_file sunny PROPORTIONAL (small_photo sunny)
              "thumbs/photo.jpg" one_opener
              (mkImage "/srv/media/photo.jpg" (1000, 500)) 1000 500 200 100 "pixels")
    as (world' & Hrun & Hfiles);
    [reflexivity | right; split; reflexivity | reflexivity | lia | lia
    | reflexivity | lia | lia | reflexivity | reflexivity |].
  exists world'. split; [exact Hrun|]. rewrite Hfiles. reflexivity.
Defined.

(** The opener that [get_thumbnail] hands to the [ThumbnailAsset] is the one
    it used itself.  After a miss of the size cache it is suspended with the
    image that was opened for its size, so that [save] gets that image from
    it without a second [Image.open]; after a hit it has not run, and the
    image is opened by [save] only.  Either way it is live. *)
Theorem thumbnail_asset_shares_the_opener
    (env : Env) (Source : Type) (AdaptiveAsset : Source -> Asset)
    (self self1 : ThumbnailCache.t) (asset : Source) (w h : option number)
    (method : option string) (m : ResizeMethod)
    (thumbnail : Thumbnail.t) (t : ThumbnailAsset.t) (world world1 : World) :
  _methods env !! default PROPORTIONAL method = Some m ->
  ThumbnailCache.get_thumbnail env Source AdaptiveAsset self asset w h method world
  = (Ok (thumbnail, self1), world1) ->
  Thumbnail._asset thumbnail = Thumb t ->
  (ThumbnailCache._size_cache self !! asset_id (AdaptiveAsset asset) = None ->
   exists im,
     Image_open_outcome env (asset_path (AdaptiveAsset asset)) = Opened im
     /\ next env (ThumbnailAsset._opener t) world1 = (Ok im, world1))
  /\ (is_Some (ThumbnailCache._size_cache self !! asset_id (AdaptiveAsset asset)) ->
      generators world1 !! op_ref (ThumbnailAsset._opener t) = Some Fresh)
  /\ live (ThumbnailAsset._opener t) world1.
Proof.
  intros Hm Hrun Hthumb.
  assert (forall (opener : Opener) (N : Size) (sizes : Size * Size),
            thumbnail = thumbnail_of (AdaptiveAsset asset) opener m N sizes ->
            ThumbnailAsset._opener t = opener) as Hopener.
  { intros opener N [D S] ->. unfold thumbnail_of, Thumbnail.__init__ in Hthumb.
    cbn [Thumbnail._asset] in Hthumb.
    destruct (decide (S = N)); [discriminate|]. injection Hthumb as <-. reflexivity. }
  destruct (ThumbnailCache._size_cache self !! asset_id (AdaptiveAsset asset))
    as [N|] eqn:Hc.
  - rewrite (get_thumbnail_hit env Source AdaptiveAsset self asset w h method m N world
               Hm Hc) in Hrun.
    destruct (thumbnail_sizes m N (Size_new w h)) as [sizes|]; [|discriminate].
    injection Hrun as Ht _ <-. symmetry in Ht.
    rewrite (Hopener _ _ _ Ht). cbn [op_ref generators].
    assert ((generators world ++ [Fresh])%list !! length (generators world) = Some Fresh)
      as Hfresh by (rewrite lookup_app_r by lia; rewrite Nat.sub_diag; reflexivity).
    split; [discriminate|]. split; [intros _; exact Hfresh|]. left. exact Hfresh.
  - destruct (Image_open_outcome env (asset_path (AdaptiveAsset asset)))
      as [im|msg] eqn:Ho.
    + rewrite (get_thumbnail_miss env Source AdaptiveAsset self asset w h method m im world
                 Hm Hc Ho) in Hrun.
      destruct (thumbnail_sizes m _ (Size_new w h)) as [sizes|]; [|discriminate].
      injection Hrun as Ht _ <-. symmetry in Ht.
      rewrite (Hopener _ _ _ Ht).
      assert (<[length (generators world) := Yielding im]>
                (generators world ++ [Fresh])%list !! length (generators world)
              = Some (Yielding im)) as Hyield.
      { apply list_lookup_insert_eq. rewrite length_app. simpl. lia. }
      split; [|split].
      * intros _. exists im. split; [reflexivity|].
        unfold next, bind, get_world. cbn [op_ref generators]. rewrite Hyield. reflexivity.
      * intros [? [=]].
      * right. exists im. exact Hyield.
    + rewrite (get_thumbnail_cannot_open env Source AdaptiveAsset self asset w h method m msg
                 world Hm Hc Ho) in Hrun. discriminate.
Qed.

Lemma thumbnail_asset_shares_the_opener_witness :
  exists (t : ThumbnailAsset.t) (world1 : World),
    snd (ThumbnailCache.get_thumbnail sunny Asset (fun a => a) ThumbnailCache.__init__
           photo (Some (Int 200)) None None nowhere) = world1
    /\ live (ThumbnailAsset._opener t) world1.
Proof.
  destruct (ThumbnailCache.get_thumbnail sunny Asset (fun a => a) ThumbnailCache.__init__
              photo (Some (Int 200)) None None nowhere)
    as [[[thumbnail self1]|e] world1] eqn:Hrun; [|vm_compute in Hrun; discriminate].
  destruct (Thumbnail._asset thumbnail) as [a|t|j] eqn:Hasset;
    [vm_compute in Hrun; injection Hrun as <- _ _; discriminate Hasset
    | | vm_compute in Hrun; injection Hrun as <- _ _; discriminate Hasset].
  exists t, world1. split; [reflexivity|].
  apply (thumbnail_asset_shares_the_opener sunny Asset (fun a => a)
           ThumbnailCache.__init__ self1 photo (Some (Int 200)) None None
           (mkResizeMethod _size_proportional _size (_resize sunny) "resize")
           thumbnail t nowhere world1); [reflexivity | exact Hrun | exact Hasset].
Defined.

(** ** Scripts *)

(** When the compressor exits with status 0, [JavascriptAsset.save] of an
    asset to compile saves what the compressor wrote on its standard output
    under the name it was given, whatever [_fail_silently] is; it logs
    nothing, so that what the compressor wrote on its standard error is
    dropped. *)
Theorem javascript_save_compiled
    (env : Env) (self : JavascriptAsset.t) (name : string) (world : World)
    (stdoutdata stderrdata : string) :
  JavascriptAsset._compile self = true ->
  communicate_outcome env (JavascriptAsset.get_contents self) = (0, stdoutdata, stderrdata) ->
  JavascriptAsset.save env self name world
  = (Ok tt,
     {| files := files world;
        stored := <[name := stdoutdata]> (stored world);
        generators := generators world;
        trace := (trace world ++ [EvCommunicate (JavascriptAsset.get_contents self);
                                  EvStorageSave name stdoutdata])%list |}).
Proof.
  intros Hc Hout. unfold JavascriptAsset.save. rewrite Hc.
  unfold bind at 1, JavascriptAsset.communicate, bind at 1, emit at 1, ret at 1.
  rewrite Hout. cbn [Z.eqb negb].
  unfold bind at 1, ret at 1. unfold storage.save, bind, emit, set_stored.
  cbn [files stored generators trace]. rewrite <- app_assoc. reflexivity.
Qed.

Lemma javascript_save_compiled_witness :
  stored (snd (JavascriptAsset.save sunny
                 (JavascriptAsset.mk [script_a; script_b] true false) "cache/ab.js" nowhere))
  !! "cache/ab.js" = Some "minified".
Proof.
  rewrite (javascript_save_compiled sunny
             (JavascriptAsset.mk [script_a; script_b] true false) "cache/ab.js" nowhere
             "minified" "") by reflexivity.
  reflexivity.
Defined.

Lemma mapM_length {A B : Type} (f : A -> M B) (l : list A) (ys : list B)
    (world world' : World) :
  mapM f l world = (Ok ys, world') -> length ys = length l.
Proof.
  revert ys world world'. induction l as [|x rest IH]; intros ys world world'.
  - unfold mapM, ret. intros [= <- _]. reflexivity.
  - cbn [mapM]. unfold bind at 1.
    destruct (f x world) as [[y|e] world1]; [|discriminate].
    unfold bind at 1.
    destruct (mapM f rest world1) as [[ys'|e] world2] eqn:Hrest; [|discriminate].
    unfold ret. intros [= <- _]. cbn [length]. f_equal. exact (IH _ _ _ Hrest).
Qed.

(** The two modes of [get_urls].  Without [force_save], which is the default
    when [settings.DEBUG] is set, every asset is handed to the asset cache on
    its own, in order, and there is one URL for each; [compile] and
    [fail_silently] play no part.  With [force_save] the assets, when there
    is one at least, are handed over as one javascript asset, which holds all
    of them and what [compile] and [fail_silently] resolve to, in one call of
    the asset cache that is told to save; the URL of that call is the one URL
    returned.  No assets, no URL, and the asset cache is not called. *)
Theorem get_urls_modes
    (get_url : CacheAsset -> option bool -> M string) (settings_DEBUG : bool)
    (assets : list Asset) (compile force_save fail_silently : option bool)
    (world : World) :
  let run :=
    JavascriptCache.get_urls get_url settings_DEBUG assets compile force_save fail_silently in
  (assets = [] -> run world = (Ok [], world))
  /\ (default (negb settings_DEBUG) force_save = false ->
      run = mapM (fun asset => get_url (Plain asset) None) assets
      /\ forall urls world', run world = (Ok urls, world') -> length urls = length assets)
  /\ (default (negb settings_DEBUG) force_save = true ->
      (forall first others, assets = first :: others ->
         run = (url <- get_url
                         (Javascript
                            (JavascriptAsset.mk assets (default true compile)
                               (default true fail_silently)))
                         (Some true) ;;
                ret [url]))
      /\ forall urls world',
           run world = (Ok urls, world') ->
           length urls = match assets with [] => 0%nat | _ :: _ => 1%nat end)
  /\ (force_save = None ->
      default (negb settings_DEBUG) force_save = negb settings_DEBUG).
Proof.
  cbv zeta. unfold JavascriptCache.get_urls. split; [|split; [|split]].
  - intros ->. destruct (default (negb settings_DEBUG) force_save); reflexivity.
  - intros ->. split; [reflexivity|].
    intros urls world' Hrun. exact (mapM_length _ _ _ _ _ Hrun).
  - intros ->. split.
    + intros first others ->. reflexivity.
    + intros urls world'. destruct assets as [|first others].
      * unfold ret. intros [= <- _]. reflexivity.
      * unfold bind at 1.
        destruct (get_url _ (Some true) world) as [[url|e] world1]; [|discriminate].
        unfold ret. intros [= <- _]. reflexivity.
  - intros ->. reflexivity.
Qed.

Lemma get_urls_modes_witness :
  (exists urls world',
     JavascriptCache.get_urls (AssetCache.get_url sunny (fun _ => "cache/ab.js")) true
       [script_a; script_b] None None None nowhere = (Ok urls, world')
     /\ length urls = 2%nat)
  /\ JavascriptCache.get_urls (AssetCache.get_url sunny (fun _ => "cache/ab.js")) false
       [script_a; script_b] None None (Some false)
     = (url <- AssetCache.get_url sunny (fun _ => "cache/ab.js")
                 (Javascript (JavascriptAsset.mk [script_a; script_b] true false))
                 (Some true) ;;
        ret [url]).
Proof.
  split.
  - destruct (JavascriptCache.get_urls (AssetCache.get_url sunny (fun _ => "cache/ab.js")) true
                [script_a; script_b] None None None nowhere)
      as [[urls|e] world'] eqn:Hrun; [|vm_compute in Hrun; discriminate].
    exists urls, world'. split; [reflexivity|].
    destruct (get_urls_modes (AssetCache.get_url sunny (fun _ => "cache/ab.js")) true
                [script_a; script_b] None None None nowhere) as (_ & H & _).
    destruct H as [_ H]; [reflexivity|]. exact (H urls world' Hrun).
  - destruct (get_urls_modes (AssetCache.get_url sunny (fun _ => "cache/ab.js")) false
                [script_a; script_b] None None (Some false) nowhere) as (_ & _ & H & _).
    destruct H as [H _]; [reflexivity|].
    exact (H script_a [script_b] eq_refl).
Defined.

(** ** The errors of [ThumbnailAsset.save] *)

(** The handler of a failed write, in full: the message of the error, and
    the files afterwards. *)
Lemma failed_write_handled (env : Env) (image : Image) (path : string) (world : World)
    (ex : exn) (partial : option string) :
  save_outcome env image path = WriteFailed ex partial ->
  exists world',
    try_except (PIL.save env image path)
      (fun ex => try_finally (raise (IOError (str ex)))
                   (try_except (os.unlink path) (fun _ => ret tt))) world
    = (Raise (IOError (str ex)), world')
    /\ files world' !! path = None
    /\ forall other, other <> path -> files world' !! other = files world !! other.
Proof.
  intros Hwrite.
  unfold try_except at 1, PIL.save, bind at 1, emit at 1. rewrite Hwrite.
  destruct partial as [written|].
  - unfold bind at 1, set_files at 1, raise at 1.
    unfold try_finally, raise at 1, try_except, os.unlink.
    unfold bind at 1, emit at 1, bind at 1, get_world at 1.
    cbn [files stored generators trace].
    rewrite lookup_insert_eq. unfold set_files.
    eexists. split; [reflexivity|]. cbn [files].
    split; [apply lookup_delete_eq|].
    intros other Hother.
    rewrite lookup_delete_ne, lookup_insert_ne by congruence. reflexivity.
  - unfold raise at 1.
    unfold try_finally, raise at 1, try_except, os.unlink.
    unfold bind at 1, emit at 1, bind at 1, get_world at 1.
    cbn [files stored generators trace].
    destruct (files world !! path) eqn:Hfile.
    + unfold set_files. eexists. split; [reflexivity|]. cbn [files].
      split; [apply lookup_delete_eq|].
      intros other Hother. rewrite lookup_delete_ne by congruence. reflexivity.
    + unfold raise, ret. eexists. split; [reflexivity|]. cbn [files].
      split; [exact Hfile|]. reflexivity.
Qed.

(** With the proportional and the resize method, the [IOError] that
    [ThumbnailAsset.save] raises carries the message of the exception of PIL.
    When PIL fails to resize, nothing is made on the disk: [save] stops
    before it makes the directory.  When PIL fails to write, there is no file
    at the path afterwards, and every other file is as before. *)
Theorem thumbnail_save_error_message
    (env : Env) (key : string) (self : ThumbnailAsset.t) (name : string) (world : World)
    (im : Image) (sw sh : Z) :
  key = PROPORTIONAL \/ key = RESIZE ->
  _methods env !! key = Some (ThumbnailAsset._method self) ->
  yields env (ThumbnailAsset._opener self) world im ->
  ThumbnailAsset._data_size self = size_of sw sh ->
  let path := storage_path env name in
  let run := ThumbnailAsset.save env self name world in
  (forall ex,
     resize_outcome env im (size_of sw sh) = Some ex ->
     fst run = Raise (IOError (str ex))
     /\ files (snd run) = files world
     /\ trace (snd run)
        = (trace (snd (next env (ThumbnailAsset._opener self) world))
             ++ [EvDraft (size_of sw sh); EvResize (size_of sw sh)])%list)
  /\ (forall ex partial,
        resize_outcome env im (size_of sw sh) = None ->
        (forall resized, save_outcome env resized path = WriteFailed ex partial) ->
        fst run = Raise (IOError (str ex))
        /\ files (snd run) !! path = None
        /\ forall other, other <> path -> files (snd run) !! other = files world !! other).
Proof.
  intros Hkey Hm Hy HS. cbv zeta.
  destruct (next_yields env _ world im Hy) as (world1 & Hnext & Hf1).
  assert (do_resize (ThumbnailAsset._method self) = _resize env) as Hdo.
  { destruct Hkey as [-> | ->];
      [rewrite methods_proportional in Hm | rewrite methods_resize in Hm];
      injection Hm as <-; reflexivity. }
  rewrite Hnext. cbn [snd].
  split.
  - intros ex Hex.
    assert (ThumbnailAsset.save env self name world
            = (Raise (IOError (str ex)),
               {| files := files world1; stored := stored world1;
                  generators := generators world1;
                  trace := (trace world1
                              ++ [EvDraft (size_of sw sh); EvResize (size_of sw sh)])%list |}))
      as ->.
    { unfold ThumbnailAsset.save. unfold bind at 1. rewrite Hnext.
      unfold bind at 1, PIL.draft, emit at 1.
      unfold bind at 1, try_except at 1. rewrite Hdo, HS.
      unfold _resize, PIL.resize, bind at 1, emit at 1.
      cbn [width height size_of Size_new fmap option_fmap option_map int
           files stored generators trace].
      rewrite Hex. unfold raise. rewrite <- app_assoc. reflexivity. }
    cbn [fst snd files trace]. auto.
  - intros ex partial Hok Hwrite.
    assert (exists world',
              ThumbnailAsset.save env self name world = (Raise (IOError (str ex)), world')
              /\ files world' !! storage_path env name = None
              /\ forall other, other <> storage_path env name ->
                               files world' !! other = files world !! other)
      as (world' & -> & Hnone & Hothers).
    { unfold ThumbnailAsset.save. unfold bind at 1. rewrite Hnext.
      unfold bind at 1, PIL.draft, emit at 1.
      unfold bind at 1, try_except at 1. rewrite Hdo, HS.
      unfold _resize, PIL.resize, bind at 1, emit at 1.
      cbn [width height size_of Size_new fmap option_fmap option_map int
           files stored generators trace].
      rewrite Hok. unfold ret at 1.
      unfold bind at 1, try_except at 1, os.makedirs, bind at 1, emit at 1.
      destruct (makedirs_outcome env _) as [oserror|];
        unfold raise at 1, ret at 1;
        match goal with
        | |- context [PIL.save env ?i ?p] =>
            match goal with
            | |- context [try_except (PIL.save env i p) ?hdl ?w] =>
                destruct (failed_write_handled env i p w ex partial (Hwrite i))
                  as (world' & Hrun & Hnone & Hothers)
            end
        end;
        exists world'; (split; [exact Hrun|]); (split; [exact Hnone|]);
        intros other Hother; rewrite (Hothers other Hother); cbn [files];
        rewrite Hf1; reflexivity. }
    cbn [fst snd]. auto.
Qed.

Lemma thumbnail_save_error_message_witness :
  fst (ThumbnailAsset.save full_disk (small_photo full_disk) "thumbs/photo.jpg" one_opener)
  = Raise (IOError "No space left on device").
Proof.
  destruct (thumbnail_save_error_message full_disk PROPORTIONAL (small_photo full_disk)
              "thumbs/photo.jpg" one_opener
              (mkImage "/srv/media/photo.jpg" (1000, 500)) 200 100)
    as [_ H];
    [left; reflexivity | reflexivity | right; split; reflexivity | reflexivity |].
  destruct (H (IOError "No space left on device") (Some "pix")) as [Hr _];
    [reflexivity | reflexivity |].
  exact Hr.
Defined.

(** ** The box of a proportional thumbnail *)


